(** * Anna KaRNNa: batching, windowing, vocabulary and top-N sampling

    A shallow embedding of the notebook [tensorboard/Anna_KaRNNa.ipynb]:
    the vocabulary cell, [split_data], [get_batch], [pick_top_n] and
    [sample].  Python integers are [Z], Python floats are exact rationals
    ([Qc]), one-dimensional arrays are lists, two-dimensional arrays carry
    their column count next to their rows, dictionaries are [gmap]s, and a
    raised exception is the [Raise] branch of [result]. *)

From Stdlib Require Import ZArith QArith Qcanon Lia Lqa Ascii.
From Stdlib Require String.
From stdpp Require Import base numbers list gmap strings sorting.

Local Open Scope Z_scope.

(** ** Exceptions and results *)

Inductive exn : Type :=
  | ZeroDivisionError
  | ValueError
  | IndexError
  | KeyError
  | UnboundLocalError
  | OverflowError.

Inductive result (A : Type) : Type :=
  | Ok (a : A)
  | Raise (e : exn).
Arguments Ok {A} a.
Arguments Raise {A} e.

Global Instance result_ret : MRet result := λ A a, Ok a.
Global Instance result_bind : MBind result := λ A B f m,
  match m with
  | Ok a => f a
  | Raise e => Raise e
  end.

Global Instance result_fmap : FMap result := λ A B f m,
  match m with
  | Ok a => Ok (f a)
  | Raise e => Raise e
  end.


(** ** Binary64 floating point

    The finite values of a Python float, and its multiplication: the exact
    product rounded to the nearest float, to the one with an even
    significand when two are nearest.  A float has a significand of 53
    bits and exponents from -1074 on; a result of magnitude [2 ^ 1024] or
    more is an infinity. *)

Module Float.

(** The float [mant * 2 ^ expo]. *)
Record float : Type := Float { mant : Z; expo : Z }.

Definition to_Q (x : float) : Q :=
  (mant x * 2 ^ Z.max 0 (expo x)) # Z.to_pos (2 ^ Z.max 0 (- expo x)).

(** [floor (log2 (a / d))] for positive [a] and [d]. *)
Definition ilog2 (a d : Z) : Z :=
  let e := Z.log2 a - Z.log2 d in
  if a * 2 ^ Z.max 0 (- e) <? d * 2 ^ Z.max 0 e then e - 1 else e.

(** The integer nearest to [num / den], the even one of two nearest. *)
Definition nearest_even (num den : Z) : Z :=
  let k := num / den in
  match 2 * (num mod den) ?= den with
  | Lt => k
  | Gt => k + 1
  | Eq => if Z.even k then k else k + 1
  end.

(** The float nearest to a rational: the rational is rounded to a multiple
    of [2 ^ x], where [x] is the exponent of the last of 53 bits, and not
    below -1074. *)
Definition round (q : Q) : float :=
  let a := Qnum q in
  let d := Zpos (Qden q) in
  if a =? 0 then Float 0 0 else
  let x := Z.max (ilog2 (Z.abs a) d - 52) (-1074) in
  Float (nearest_even (a * 2 ^ Z.max 0 (- x)) (d * 2 ^ Z.max 0 x)) x.

(** Whether the rounded value is a finite float and not an infinity. *)
Definition is_finite (x : float) : bool :=
  Z.abs (mant x) * 2 ^ Z.max 0 (expo x) <? 2 ^ 1024 * 2 ^ Z.max 0 (- expo x).

(** [float(n)] *)
Definition of_int (n : Z) : float := round (inject_Z n).

(** [x * y] *)
Definition mul (x y : float) : float := round (to_Q x * to_Q y).

(** The integer part, toward zero. *)
Definition trunc (x : float) : Z :=
  if 0 <=? expo x then mant x * 2 ^ expo x else Z.quot (mant x) (2 ^ (- expo x)).

End Float.

(** ** Python built-ins *)

Module Py.

(** [len(l)] as a Python integer. *)
Definition len {A} (l : list A) : Z := Z.of_nat (length l).

(** [int(a / b)] on integers: true division, then truncation toward zero.
    The quotient is taken exactly; a double represents it faithfully for the
    magnitudes a corpus can have. *)
Definition int_div (a b : Z) : result Z :=
  if b =? 0 then Raise ZeroDivisionError else Ok (Z.quot a b).

(** [int(n * f)] for an integer [n] and a finite float [f], given by its
    value; a rational that is not a float stands for the float nearest to
    it, as in a literal.  The integer is converted to a float, the product
    is rounded to a float, and the result is truncated toward zero.  An
    integer too large for a float and a product that is an infinity raise
    [OverflowError]. *)
Definition int_mul (n : Z) (f : Qc) : result Z :=
  let a := Float.of_int n in
  if negb (Float.is_finite a) then Raise OverflowError else
  let p := Float.mul a (Float.round (this f)) in
  if negb (Float.is_finite p) then Raise OverflowError else
  Ok (Float.trunc p).

(** A slice bound [i] against a sequence of length [n]: negative bounds
    count from the end, and every bound is clipped to [0, n]. *)
Definition clamp (n : nat) (i : Z) : nat :=
  Z.to_nat (if i <? 0 then Z.max 0 (i + Z.of_nat n) else Z.min i (Z.of_nat n)).

(** The bounds of [[start:stop]]; an omitted bound is [None]. *)
Definition slice_bounds (n : nat) (start stop : option Z) : nat * nat :=
  (from_option (clamp n) 0%nat start, from_option (clamp n) n stop).

(** [l[start:stop]]. *)
Definition slice {A} (start stop : option Z) (l : list A) : list A :=
  let '(a, b) := slice_bounds (length l) start stop in
  take (b - a) (drop a l).

(** [range(n)]. *)
Definition range (n : Z) : list Z := seqZ 0 n.

End Py.

(** ** The parts of NumPy the notebook calls *)

Module Np.

(** A two-dimensional array: [shape = (length rows, ncols)]. *)
Record ndarray2 : Type := Array2 { ncols : nat; rows : list (list Z) }.

Definition shape (a : ndarray2) : nat * nat := (length (rows a), ncols a).

(** Every row has [ncols] entries. *)
Definition wf (a : ndarray2) : Prop :=
  Forall (λ r, length r = ncols a) (rows a).

(** Entry [(i, j)], when it exists. *)
Definition get (a : ndarray2) (i j : nat) : option Z :=
  rows a !! i ≫= λ r, r !! j.

(** [a[:, start:stop]]. *)
Definition cols (start stop : option Z) (a : ndarray2) : ndarray2 :=
  let '(lo, hi) := Py.slice_bounds (ncols a) start stop in
  {| ncols := hi - lo; rows := map (Py.slice start stop) (rows a) |}.

(** [n] consecutive pieces of [k] elements each. *)
Fixpoint chunks {A} (k n : nat) (l : list A) : list (list A) :=
  match n with
  | O => []
  | S n' => take k l :: chunks k n' (drop k l)
  end.

(** [np.split(ary, sections)] with an integer [sections], on a
    one-dimensional array: the length must divide evenly, and the number of
    sections must be positive. *)
Definition split {A} (ary : list A) (sections : Z) : result (list (list A)) :=
  let N := Py.len ary in
  if sections =? 0 then Raise ZeroDivisionError
  else if negb (N mod sections =? 0) then Raise ValueError
  else if sections <? 0 then Raise ValueError
  else Ok (chunks (Z.to_nat (N / sections)) (Z.to_nat sections) ary).

(** [np.stack(arrays)] on one-dimensional arrays: at least one array, all of
    one length. *)
Definition stack (arrays : list (list Z)) : result ndarray2 :=
  match arrays with
  | [] => Raise ValueError
  | a :: rest =>
      if forallb (λ r, Nat.eqb (length r) (length a)) rest
      then Ok {| ncols := length a; rows := arrays |}
      else Raise ValueError
  end.

End Np.

Import Np.

(** ** Batch splitter *)

(** The first half of [split_data], up to the comment "Now x and y are
    arrays with dimensions batch_size x n_batches*num_steps": the input
    matrix [x] and the target matrix [y] ([split_data_factor] below links it
    to [split_data]). *)
Definition split_data_xy (chars : list Z) (batch_size num_steps : Z)
  : result (ndarray2 * ndarray2) :=
  let slice_size := batch_size * num_steps in
  n_batches ← Py.int_div (Py.len chars) slice_size;
  let x := Py.slice None (Some (n_batches * slice_size)) chars in
  let y := Py.slice (Some 1) (Some (n_batches * slice_size + 1)) chars in
  xs ← Np.split x batch_size;
  x ← Np.stack xs;
  ys ← Np.split y batch_size;
  y ← Np.stack ys;
  Ok (x, y).

(** [split_data(chars, batch_size, num_steps, split_frac)]:
    returns [(train_x, train_y, val_x, val_y)]. *)
Definition split_data (chars : list Z) (batch_size num_steps : Z) (split_frac : Qc)
  : result (ndarray2 * ndarray2 * ndarray2 * ndarray2) :=
  let slice_size := batch_size * num_steps in
  n_batches ← Py.int_div (Py.len chars) slice_size;
  let x := Py.slice None (Some (n_batches * slice_size)) chars in
  let y := Py.slice (Some 1) (Some (n_batches * slice_size + 1)) chars in
  xs ← Np.split x batch_size;
  x ← Np.stack xs;
  ys ← Np.split y batch_size;
  y ← Np.stack ys;
  split_idx ← Py.int_mul n_batches split_frac;
  let train_x := cols None (Some (split_idx * num_steps)) x in
  let train_y := cols None (Some (split_idx * num_steps)) y in
  let val_x := cols (Some (split_idx * num_steps)) None x in
  let val_y := cols (Some (split_idx * num_steps)) None y in
  Ok (train_x, train_y, val_x, val_y).

(** ** Batch iterator *)

(** [get_batch(arrs, num_steps)]: the list of the values the generator
    yields, in order; an exception raised while the generator runs is the
    [Raise] branch. *)
Definition get_batch (arrs : list ndarray2) (num_steps : Z)
  : result (list (list ndarray2)) :=
  match arrs with
  | [] => Raise IndexError
  | a0 :: _ =>
      let '(batch_size, slice_size) := shape a0 in
      n_batches ← Py.int_div (Z.of_nat slice_size) num_steps;
      Ok (map (λ b, map (cols (Some (b * num_steps)) (Some ((b + 1) * num_steps))) arrs)
              (Py.range n_batches))
  end.

(** ** Vocabulary builder *)

(** [enumerate(l)]. *)
Definition enumerate {A} (l : list A) : list (nat * A) := imap pair l.

(** A dictionary built from [(key, value)] items in order: a later item
    replaces an earlier one with the same key. *)
Definition dict `{Countable K} {V} (items : list (K * V)) : gmap K V :=
  foldl (λ d kv, <[kv.1 := kv.2]> d) ∅ items.

(** [d[k]]. *)
Definition getitem `{Countable K} {V} (d : gmap K V) (k : K) : result V :=
  match d !! k with
  | Some v => Ok v
  | None => Raise KeyError
  end.

(** What Python promises about iterating over [set(text)]: every distinct
    character of [text] once, in an order of its own choosing (the same
    order each time the unmodified set is iterated). *)
Record set_order (set_iter : list ascii → list ascii) : Prop := {
  set_iter_NoDup : ∀ t, NoDup (set_iter t);
  set_iter_elem : ∀ t c, c ∈ set_iter t ↔ c ∈ t
}.

Section vocabulary.

(** The iteration order of [set(text)]. *)
Variable set_iter : list ascii → list ascii.

(** [vocab = set(text)], as the sequence its iteration gives. *)
Definition vocab (text : string) : list ascii :=
  set_iter (String.list_ascii_of_string text).

(** [vocab_to_int = {c: i for i, c in enumerate(vocab)}] *)
Definition vocab_to_int (text : string) : gmap ascii nat :=
  dict ((λ ic, (ic.2, ic.1)) <$> enumerate (vocab text)).

(** [int_to_vocab = dict(enumerate(vocab))] *)
Definition int_to_vocab (text : string) : gmap nat ascii :=
  dict (enumerate (vocab text)).

(** [chars = np.array([vocab_to_int[c] for c in text], dtype=np.int32)] *)
Definition chars (text : string) : result (list Z) :=
  mapM (λ c, Z.of_nat <$> getitem (vocab_to_int text) c) (String.list_ascii_of_string text).

End vocabulary.

(** ** Float arrays, views and the random generator *)

Global Instance Qc_inhabited : Inhabited Qc := populate 0%Qc.

(** Float arrays live in a heap of buffers.  An array object names the
    buffer it reads and writes; a view of an array names that same buffer.
    A buffer that was never allocated reads as empty. *)
Definition loc : Type := nat.

(** The state a call can change: the buffers, and the uniform draws from
    [0, 1) that the random generator will hand out next. *)
Record world : Type := World { heap : gmap loc (list Qc); entropy : nat → Qc }.

Definition M (A : Type) : Type := world → world * result A.

Global Instance M_ret : MRet M := λ A a w, (w, Ok a).
Global Instance M_bind : MBind M := λ A B f m w,
  match m w with
  | (w', Ok a) => f a w'
  | (w', Raise e) => (w', Raise e)
  end.

Definition raise {A} (e : exn) : M A := λ w, (w, Raise e).
Definition lift {A} (r : result A) : M A := λ w, (w, r).

Definition read (b : loc) : M (list Qc) := λ w, (w, Ok (heap w !!! b)).
Definition write (b : loc) (data : list Qc) : M unit := λ w,
  (World (<[b := data]> (heap w)) (entropy w), Ok tt).
Definition alloc (data : list Qc) : M loc := λ w,
  let b := fresh (dom (heap w)) in
  (World (<[b := data]> (heap w)) (entropy w), Ok b).

(** [random_sample()]: the next uniform draw. *)
Definition random_sample : M Qc := λ w,
  (World (heap w) (λ n, entropy w (S n)), Ok (entropy w 0%nat)).

(** The prediction array [preds]: a float array of shape [(1, V)], which is
    what a sampling graph (one row, one step) returns for [model.preds];
    its buffer holds the [V] class probabilities. *)
Record ndarray : Type := NdArray { base : loc }.

(** What [np.squeeze] makes of a [(1, V)] array: a one-dimensional view of
    shape [(V,)], or, when [V = 1], a zero-dimensional view of shape [()].
    Either way it shares the buffer of the array it was taken from. *)
Inductive view : Type :=
  | Vector (b : loc)
  | Scalar (b : loc).

Definition buffer (p : view) : loc :=
  match p with Vector b | Scalar b => b end.

Module NpFloat.

(** [np.squeeze(a)] *)
Definition squeeze (a : ndarray) : M view :=
  data ← read (base a);
  mret (if decide (length data = 1%nat) then Scalar (base a) else Vector (base a)).

(** What [np.argsort] promises about a one-dimensional array: a permutation
    of its indices that lists the values in ascending order.  The order of
    equal values is the sort routine's own business. *)
Record argsort_spec (argsort : list Qc → list nat) : Prop := {
  argsort_perm : ∀ p, argsort p ≡ₚ seq 0 (length p);
  argsort_ascending : ∀ p i j a b,
    (i ≤ j)%nat → argsort p !! i = Some a → argsort p !! j = Some b →
    (p !!! a ≤ p !!! b)%Qc
}.

(** [np.sum(p)] *)
Definition sum (p : list Qc) : Qc := foldr Qcplus 0%Qc p.

(** [data[idx] = 0] on the entries of a buffer. *)
Definition zero_at (idx : list nat) (data : list Qc) : list Qc :=
  foldl (λ d i, <[i := 0%Qc]> d) data idx.

(** [p[idx] = 0] with an integer index array: a zero-dimensional array
    takes no index, and every index must be in range. *)
Definition setitem_zero (p : view) (idx : list nat) : M unit :=
  match p with
  | Scalar _ => raise IndexError
  | Vector b =>
      data ← read b;
      if forallb (λ i, Nat.ltb i (length data)) idx
      then write b (zero_at idx data)
      else raise IndexError
  end.

(** [p / np.sum(p)]: a new array.  When the sum is zero NumPy fills the
    quotient with NaN (or infinities), which [np.random.choice] then
    rejects; exact rationals have no NaN, so the rejection is raised
    here. *)
Definition normalized (p : view) : M view :=
  data ← read (buffer p);
  let s := sum data in
  if decide (s = 0%Qc) then raise ValueError
  else
    b ← alloc ((λ x, x / s)%Qc <$> data);
    mret (match p with Vector _ => Vector b | Scalar _ => Scalar b end).

(** The running sums [acc + p0, acc + p0 + p1, ...]. *)
Fixpoint cumsum (acc : Qc) (p : list Qc) : list Qc :=
  match p with
  | [] => []
  | x :: p' => (acc + x)%Qc :: cumsum (acc + x)%Qc p'
  end.

(** [cdf.searchsorted(u, side='right')] on an ascending [cdf]: the number
    of leading entries that are at most [u]. *)
Fixpoint searchsorted_right (cdf : list Qc) (u : Qc) : nat :=
  match cdf with
  | [] => 0
  | c :: cdf' => if decide (c ≤ u)%Qc then S (searchsorted_right cdf' u) else 0
  end.

(** [np.random.choice(a, 1, p=p)[0]] for an integer [a]: [p] must be
    one-dimensional, of size [a > 0], non-negative and sum to one; the index
    is then found by inverting the cumulative distribution at a uniform
    draw. *)
Definition random_choice (a : Z) (p : view) : M nat :=
  match p with
  | Scalar _ => raise ValueError
  | Vector b =>
      data ← read b;
      if decide (a ≤ 0) then raise ValueError
      else if decide (Py.len data ≠ a) then raise ValueError
      else if existsb (λ x, bool_decide (x < 0)%Qc) data then raise ValueError
      else if decide (sum data ≠ 1%Qc) then raise ValueError
      else
        u ← random_sample;
        mret (searchsorted_right (cumsum 0 data) u)
  end.

End NpFloat.

(** ** Sampler *)

Section sampler.

(** [np.argsort]. *)
Variable argsort : list Qc → list nat.

(** [pick_top_n(preds, vocab_size, top_n=5)] *)
Definition pick_top_n (preds : ndarray) (vocab_size : Z) (top_n : Z) : M nat :=
  p ← NpFloat.squeeze preds;
  data ← read (buffer p);
  NpFloat.setitem_zero p (Py.slice None (Some (- top_n)) (argsort data));;
  p ← NpFloat.normalized p;
  c ← NpFloat.random_choice vocab_size p;
  mret c.

(** The restored sampling graph, as far as [sample] uses it: the zero
    state, and one evaluation of [[model.preds, model.final_state]] on a
    [1 x 1] input holding the character code [x]. *)
Record rnn (S : Type) : Type := Rnn {
  initial_state : S;
  step : nat → S → list Qc * S
}.
Arguments initial_state {S} _.
Arguments step {S} _ _ _.

(** The notebook's globals that [sample] reads. *)
Record globals : Type := Globals {
  g_vocab : list ascii;
  g_vocab_to_int : gmap ascii nat;
  g_int_to_vocab : gmap nat ascii
}.

Context {S : Type}.

(** [build_rnn(vocab_size, lstm_size=lstm_size, sampling=True)] followed by
    [saver.restore(sess, checkpoint)]. *)
Variable restore : string → Z → Z → result (rnn S).

Variable G : globals.

(** [sess.run([model.preds, model.final_state], feed_dict=feed)]: the
    predictions come back in a fresh array. *)
Definition sess_run (model : rnn S) (x : nat) (new_state : S) : M (ndarray * S) :=
  let '(out, new_state) := step model x new_state in
  b ← alloc out;
  mret (NdArray b, new_state).

(** The loop [for c in prime]; [preds] is unbound until its first turn. *)
Fixpoint prime_loop (model : rnn S) (prime : list ascii)
    (preds : option ndarray) (new_state : S) : M (option ndarray * S) :=
  match prime with
  | [] => mret (preds, new_state)
  | c :: prime' =>
      x ← lift (getitem (g_vocab_to_int G) c);
      '(preds, new_state) ← sess_run model x new_state;
      prime_loop model prime' (Some preds) new_state
  end.

(** The loop [for i in range(n_samples)], with [n] turns left. *)
Fixpoint sample_loop (model : rnn S) (n : nat)
    (c : nat) (new_state : S) (samples : list ascii) : M (list ascii) :=
  match n with
  | O => mret samples
  | Datatypes.S n' =>
      let x := c in
      '(preds, new_state) ← sess_run model x new_state;
      c ← pick_top_n preds (Py.len (g_vocab G)) 5;
      ch ← lift (getitem (g_int_to_vocab G) c);
      sample_loop model n' c new_state (samples ++ [ch])
  end.

(** [sample(checkpoint, n_samples, lstm_size, vocab_size, prime="The ")] *)
Definition sample (checkpoint : string) (n_samples : Z) (lstm_size vocab_size : Z)
    (prime : string) : M string :=
  let prime := "Far"%string in
  let samples := String.list_ascii_of_string prime in
  model ← lift (restore checkpoint lstm_size vocab_size);
  let new_state := initial_state model in
  '(preds, new_state) ← prime_loop model (String.list_ascii_of_string prime) None new_state;
  match preds with
  | None => raise UnboundLocalError
  | Some preds =>
      c ← pick_top_n preds (Py.len (g_vocab G)) 5;
      ch ← lift (getitem (g_int_to_vocab G) c);
      let samples := samples ++ [ch] in
      samples ← sample_loop model (Z.to_nat n_samples) c new_state samples;
      mret (String.string_of_list_ascii samples)
  end.

End sampler.

(** The globals as the vocabulary cell leaves them for a given text. *)
Definition notebook_globals (set_iter : list ascii → list ascii) (text : string) : globals :=
  {| g_vocab := vocab set_iter text;
     g_vocab_to_int := vocab_to_int set_iter text;
     g_int_to_vocab := int_to_vocab set_iter text |}.

(** ** The distribution [pick_top_n] samples from *)

(** The rank of the value [x] in [p], counted from 0 at the top: how many
    entries of [p] are strictly greater. *)
Definition count_greater (p : list Qc) (x : Qc) : nat :=
  length (filter (λ y, (x < y)%Qc) p).

(** [p] after [p[np.argsort(p)[:-top_n]] = 0]. *)
Definition truncated (argsort : list Qc → list nat) (top_n : Z) (p : list Qc) : list Qc :=
  NpFloat.zero_at (Py.slice None (Some (- top_n)) (argsort p)) p.

(** [p / np.sum(p)] *)
Definition renormalized (p : list Qc) : list Qc :=
  (λ x, x / NpFloat.sum p)%Qc <$> p.

(** ** Concrete inputs *)

(** The default [split_frac=0.9]. *)
Definition split_frac_default : Qc := Q2Qc (9 # 10).


(** "ABABABAB" encoded with [A:0, B:1], and the same corpus with one more
    "A". *)
Definition corpus_ABABABAB : list Z := [0; 1; 0; 1; 0; 1; 0; 1].
Definition ex_chars : list Z := [0; 1; 0; 1; 0; 1; 0; 1; 0].

(** What [split_data] makes of [ex_chars] with two rows, two steps and
    everything in the training split. *)
Definition ex_train_x : ndarray2 := Array2 4 [[0; 1; 0; 1]; [0; 1; 0; 1]].
Definition ex_train_y : ndarray2 := Array2 4 [[1; 0; 1; 0]; [1; 0; 1; 0]].
Definition ex_val : ndarray2 := Array2 0 [[]; []].

(** The halves of [ex_train_x] and [ex_train_y]: what [split_data] makes of
    [ex_chars] when half of the batches go to the validation split. *)
Definition ex_half_x : ndarray2 := Array2 2 [[0; 1]; [0; 1]].
Definition ex_half_y : ndarray2 := Array2 2 [[1; 0]; [1; 0]].

(** A corpus of fifty slices of one row and two steps and one character
    more, and what [split_data] makes of it with a split fraction of 0.58:
    the float product [50 * 0.58] is a little below 29, so that 28 batches
    go to the training split and 22 to the validation split. *)
Definition ex_frac : Qc := Q2Qc (58 # 100).
Definition ex_fifty_chars : list Z := (λ i, i mod 3) <$> seqZ 0 101.
Definition ex_fifty_train_x : ndarray2 := Array2 56 [take 56 ex_fifty_chars].
Definition ex_fifty_train_y : ndarray2 := Array2 56 [take 56 (drop 1 ex_fifty_chars)].
Definition ex_fifty_val_x : ndarray2 := Array2 44 [take 44 (drop 56 ex_fifty_chars)].
Definition ex_fifty_val_y : ndarray2 := Array2 44 [take 44 (drop 57 ex_fifty_chars)].

(** A corpus shorter than one slice of [2 * 2] characters. *)
Definition short_chars : list Z := [0; 1; 0].

(** A matrix whose five columns leave a remainder for windows of two. *)
Definition ex_wide : ndarray2 := Array2 5 [[0; 1; 2; 3; 4]; [5; 6; 7; 8; 9]].

(** A stable merge sort of the indices by value: one routine that meets
    what [np.argsort] promises. *)
Definition le_at (p : list Qc) (a b : nat) : Prop := (p !!! a ≤ p !!! b)%Qc.

Global Instance le_at_dec p : RelDecision (le_at p) :=
  λ a b, decide (p !!! a ≤ p !!! b)%Qc.

Definition argsort_stable (p : list Qc) : list nat :=
  merge_sort (le_at p) (seq 0 (length p)).

(** A four-class prediction, stored at buffer 0, with every uniform draw
    equal to one third. *)
Definition ex_preds : list Qc := Q2Qc <$> [1 # 10; 1 # 2; 1 # 5; 1 # 5]%Q.
Definition ex_world : world := World {[ 0%nat := ex_preds ]} (λ _, Q2Qc (1 # 3)).

(** A one-state network over the three characters of "Far" that always
    predicts the same distribution, the globals for the text "Far", and a
    run of [sample] on them. *)
Definition ex_net : rnn unit :=
  {| initial_state := tt;
     step := λ _ _, (Q2Qc <$> [1 # 2; 1 # 4; 1 # 4]%Q, tt) |}.

Definition ex_globals : globals := notebook_globals remove_dups "Far".

Definition ex_sample (n_samples : Z) (prime : string) : result string :=
  (sample argsort_stable (λ _ _ _, Ok ex_net) ex_globals
     "checkpoints/anna/i3560_l512_1.122.ckpt" n_samples 512 3 prime
     (World ∅ (λ _, Q2Qc (1 # 3)))).2.

(** ** Training loop *)

(** [a % b] on integers. *)
Definition py_mod (a b : Z) : result Z :=
  if b =? 0 then Raise ZeroDivisionError else Ok (a mod b).

(** [np.mean(l)] of a list of floats; the mean of no numbers is NaN, which
    is [None] here. *)
Definition np_mean (l : list Qc) : option Qc :=
  match l with
  | [] => None
  | _ :: _ => Some (NpFloat.sum l / Qc_of_Z (Py.len l))%Qc
  end.

Section training.

(** [S]: the recurrent state that is threaded through the windows;
    [W]: everything the session holds besides (variables, optimizer slots,
    the dropout generator). *)
Context {S W : Type}.

(** The graph as the training cell uses it: the zero state, and what a
    training step (cost, final state and optimizer, with [keep_prob = 0.5])
    and an evaluation step (cost and final state, with [keep_prob = 1])
    compute from the session contents, a window of inputs, a window of
    targets and a recurrent state.  The steps are run through [run_train]
    and [run_eval] below, which refuse a window that does not have the
    shape of the placeholders. *)
Record network : Type := Network {
  net_initial_state : S;
  net_train : W → ndarray2 → ndarray2 → S → Qc * S * W;
  net_eval : W → ndarray2 → ndarray2 → S → Qc * S
}.

(** What the cell prints and saves.  An event carries the values that the
    printed line or the checkpoint's file name is formatted from; a
    checkpoint also carries the session contents that are saved. *)
Inductive event : Type :=
  | Progress (epoch epochs iteration iterations : Z) (mean_loss seconds : Qc)
  | ValidationLoss (mean : option Qc)
  | SaveCheckpoint (iteration lstm_size : Z) (mean : option Qc) (saved : W).

(** The state of a run: the session contents, what has been printed and
    saved so far, and the readings that [time.time()] will give next. *)
Record run : Type := Run { weights : W; trace : list event; clock : nat → Qc }.

Definition T (A : Type) : Type := run → run * result A.

Global Instance T_ret : MRet T := λ A a s, (s, Ok a).
Global Instance T_bind : MBind T := λ A B f m s,
  match m s with
  | (s', Ok a) => f a s'
  | (s', Raise e) => (s', Raise e)
  end.

Definition fail {A} (e : exn) : T A := λ s, (s, Raise e).
Definition lift_result {A} (r : result A) : T A := λ s, (s, r).

(** [time.time()] *)
Definition time_time : T Qc := λ s,
  (Run (weights s) (trace s) (λ n, clock s (Datatypes.S n)), Ok (clock s 0%nat)).

Definition emit (ev : event) : T unit := λ s,
  (Run (weights s) (trace s ++ [ev]) (clock s), Ok tt).

(** [saver.save(sess, name)] *)
Definition saver_save (iteration lstm_size : Z) (mean : option Qc) : T unit := λ s,
  emit (SaveCheckpoint iteration lstm_size mean (weights s)) s.

(** Unpacking a yielded list into [x, y]. *)
Definition unpack2 (w : list ndarray2) : T (ndarray2 * ndarray2) :=
  match w with
  | [x; y] => mret (x, y)
  | _ => fail ValueError
  end.

Section loops.

Variable net : network.
Variables epochs save_every_n lstm_size batch_size num_steps : Z.
Variables train_x train_y val_x val_y : ndarray2.
Variables n_batches iterations : Z.

(** [build_rnn] declares the placeholders [inputs] and [targets] with the
    shape [[batch_size, num_steps]], and the cell builds its model with its
    own [batch_size] and [num_steps]: [sess.run] raises [ValueError] on a
    fed array of another shape, before it computes anything. *)
Definition feed (x : ndarray2) : T unit :=
  if decide (Z.of_nat (length (rows x)) = batch_size ∧ Z.of_nat (ncols x) = num_steps)
  then mret tt else fail ValueError.

(** A training step updates the session; an evaluation step does not. *)
Definition train_step (x y : ndarray2) (new_state : S) : T (Qc * S) := λ s,
  let '(r, w) := net_train net (weights s) x y new_state in
  (Run w (trace s) (clock s), Ok r).

Definition eval_step (x y : ndarray2) (new_state : S) : T (Qc * S) := λ s,
  (s, Ok (net_eval net (weights s) x y new_state)).

(** [sess.run([model.cost, model.final_state, model.optimizer], feed_dict=feed)] *)
Definition run_train (x y : ndarray2) (new_state : S) : T (Qc * S) :=
  feed x;;
  feed y;;
  train_step x y new_state.

(** [sess.run([model.cost, model.final_state], feed_dict=feed)] *)
Definition run_eval (x y : ndarray2) (new_state : S) : T (Qc * S) :=
  feed x;;
  feed y;;
  eval_step x y new_state.

(** [for x, y in get_batch([val_x, val_y], num_steps)] *)
Fixpoint validation_loop (windows : list (list ndarray2))
    (new_state : S) (val_loss : list Qc) : T (S * list Qc) :=
  match windows with
  | [] => mret (new_state, val_loss)
  | w :: windows' =>
      '(x, y) ← unpack2 w;
      '(batch_loss, new_state) ← run_eval x y new_state;
      validation_loop windows' new_state (val_loss ++ [batch_loss])
  end.

(** The body of [if (iteration%save_every_n == 0) or (iteration == iterations)]:
    a validation pass from the zero state, then the checkpoint.  The
    recurrent state it ends with stays in [new_state]. *)
Definition validate_and_save (iteration : Z) : T S :=
  let new_state := net_initial_state net in
  windows ← lift_result (get_batch [val_x; val_y] num_steps);
  '(new_state, val_loss) ← validation_loop windows new_state [];
  emit (ValidationLoss (np_mean val_loss));;
  saver_save iteration lstm_size (np_mean val_loss);;
  mret new_state.

(** [for b, (x, y) in enumerate(get_batch([train_x, train_y], num_steps), 1)],
    from count [b] on. *)
Fixpoint batch_loop (e : Z) (windows : list (list ndarray2)) (b : Z)
    (new_state : S) (loss : Qc) : T (S * Qc) :=
  match windows with
  | [] => mret (new_state, loss)
  | w :: windows' =>
      '(x, y) ← unpack2 w;
      let iteration := e * n_batches + b in
      start ← time_time;
      '(batch_loss, new_state) ← run_train x y new_state;
      let loss := (loss + batch_loss)%Qc in
      end_ ← time_time;
      emit (Progress (e + 1) epochs iteration iterations
              (loss / Qc_of_Z b)%Qc (end_ - start)%Qc);;
      r ← lift_result (py_mod iteration save_every_n);
      new_state ←
        (if bool_decide (r = 0) || bool_decide (iteration = iterations)
         then validate_and_save iteration
         else mret new_state);
      batch_loop e windows' (b + 1) new_state loss
  end.

(** [for e in range(epochs)] *)
Fixpoint epoch_loop (es : list Z) : T unit :=
  match es with
  | [] => mret tt
  | e :: es' =>
      let new_state := net_initial_state net in
      let loss := 0%Qc in
      windows ← lift_result (get_batch [train_x; train_y] num_steps);
      batch_loop e windows 1 new_state loss;;
      epoch_loop es'
  end.

End loops.

(** The training cell, from [split_data] to the end of the session. *)
Definition train (net : network) (chars : list Z)
    (batch_size num_steps lstm_size epochs save_every_n : Z) : T unit :=
  '(train_x, train_y, val_x, val_y) ←
    lift_result (split_data chars batch_size num_steps split_frac_default);
  n_batches ← lift_result (Py.int_div (Z.of_nat (ncols train_x)) num_steps);
  let iterations := n_batches * epochs in
  epoch_loop net epochs save_every_n lstm_size batch_size num_steps
    train_x train_y val_x val_y n_batches iterations (Py.range epochs).

(** The iteration numbers of the progress lines, and of the checkpoints. *)
Definition progress_iterations (tr : list event) : list Z :=
  omap (λ ev, match ev with Progress _ _ i _ _ _ => Some i | _ => None end) tr.

Definition checkpoint_iterations (tr : list event) : list Z :=
  omap (λ ev, match ev with SaveCheckpoint i _ _ _ => Some i | _ => None end) tr.

(** The condition under which the cell validates and saves after an
    iteration. *)
Definition checkpoint_due (save_every_n iterations iteration : Z) : Prop :=
  iteration mod save_every_n = 0 ∨ iteration = iterations.

Global Instance checkpoint_due_dec save_every_n iterations iteration :
  Decision (checkpoint_due save_every_n iterations iteration).
Proof. unfold checkpoint_due. apply _. Defined.

(** What a line of a run with [n_batches] windows per epoch may show: a
    progress line the epoch that its iteration falls in, a validation line
    and a checkpoint a mean that is a number exactly when there was a
    window to validate on. *)
Definition event_wf (epochs iterations lstm_size n_batches : Z) (validated : Prop)
    (ev : event) : Prop :=
  match ev with
  | Progress epoch epochs' iteration iterations' _ _ =>
      epochs' = epochs ∧ iterations' = iterations ∧ 1 ≤ epoch ≤ epochs ∧
      (epoch - 1) * n_batches < iteration ≤ epoch * n_batches
  | ValidationLoss mean => is_Some mean ↔ validated
  | SaveCheckpoint _ lstm_size' mean _ =>
      lstm_size' = lstm_size ∧ (is_Some mean ↔ validated)
  end.

End training.

(** A network with constant losses whose session counts the training steps. *)
Definition ex_network : @network unit nat :=
  {| net_initial_state := tt;
     net_train := λ w _ _ _, (Q2Qc (1 # 2), tt, Datatypes.S w);
     net_eval := λ _ _ _ _, (Q2Qc (1 # 4), tt) |}.

(** A corpus of eleven slices of two rows and two steps, and one character
    more. *)
Definition ex_long_chars : list Z := (λ i, i mod 3) <$> seqZ 0 45.

(** A fresh session whose clock ticks once per reading. *)
Definition ex_run : @run nat := Run 0%nat [] (λ n, Qc_of_Z (Z.of_nat n)).

(** * Properties *)

(** ** Rounding to a float *)

Section binary64_facts.
Import Float.

Lemma nearest_even_le (num den j : Z) :
  0 < den → num ≤ j * den → nearest_even num den ≤ j.
Proof.
  intros Hden Hle. unfold nearest_even.
  pose proof (Z.div_mod num den ltac:(lia)) as Hdm.
  pose proof (Z.mod_pos_bound num den Hden) as Hr.
  assert (num / den ≤ j) as Hk by (apply Z.div_le_upper_bound; lia).
  destruct (Z.compare_spec (2 * (num mod den)) den) as [Heq|Hlt|Hgt].
  - destruct (Z.even (num / den)); [done|]. nia.
  - done.
  - nia.
Qed.

Lemma nearest_even_ge (num den j : Z) :
  0 < den → j * den ≤ num → j ≤ nearest_even num den.
Proof.
  intros Hden Hle. unfold nearest_even.
  assert (j ≤ num / den) as Hk by (apply Z.div_le_lower_bound; lia).
  destruct (2 * (num mod den) ?= den); [destruct (Z.even (num / den))|..]; lia.
Qed.

Lemma ilog2_lt (a d t : Z) :
  0 < a → 0 < d → 0 ≤ t → a < d * 2 ^ t → ilog2 a d < t.
Proof.
  intros Ha Hd Ht Hlt. unfold ilog2.
  set (e := Z.log2 a - Z.log2 d).
  assert (e ≤ t) as He.
  { destruct (Z.log2_spec a Ha) as [Ha1 _]. destruct (Z.log2_spec d Hd) as [_ Hd2].
    assert (2 ^ Z.log2 a < 2 ^ (Z.succ (Z.log2 d) + t)) as Hpow.
    { rewrite Z.pow_add_r by (pose proof (Z.log2_nonneg d); lia).
      pose proof (Z.pow_pos_nonneg 2 t ltac:(lia) Ht). nia. }
    apply Z.pow_lt_mono_r_iff in Hpow; [unfold e; lia | lia |].
    pose proof (Z.log2_nonneg d). lia. }
  destruct (Z.ltb_spec (a * 2 ^ Z.max 0 (- e)) (d * 2 ^ Z.max 0 e)) as [|Hge]; [lia|].
  destruct (decide (e = t)) as [Het|]; [|lia].
  exfalso. clearbody e. subst e.
  rewrite (Z.max_l 0 (- t)), (Z.max_r 0 t), Z.pow_0_r in Hge by lia. lia.
Qed.


(** The exponent of the last place is at most [-k] below [2 ^ (53 - k)]. *)
Lemma round_expo (a : Z) (d : positive) (k : Z) :
  0 < a → 0 ≤ k ≤ 53 → a * 2 ^ k < 2 ^ 53 * Zpos d →
  Z.max (ilog2 (Z.abs a) (Zpos d) - 52) (-1074) ≤ - k.
Proof.
  intros Ha Hk Hlt. rewrite Z.abs_eq by lia.
  assert (ilog2 a (Zpos d) < 53 - k); [|lia].
  apply ilog2_lt; [lia..|].
  replace 53 with ((53 - k) + k) in Hlt by lia.
  rewrite Z.pow_add_r in Hlt by lia.
  pose proof (Z.pow_pos_nonneg 2 k ltac:(lia) ltac:(lia)). nia.
Qed.

Lemma to_Q_le (m x j k : Z) :
  x ≤ - k → 0 ≤ k → m ≤ j * 2 ^ (- x - k) →
  (to_Q (Float m x) * inject_Z (2 ^ k) <= inject_Z j)%Q.
Proof.
  intros Hx Hk Hm. unfold to_Q, Qle, Qmult, inject_Z. cbn [mant expo Qnum Qden].
  rewrite (Z.max_l 0 x), (Z.max_r 0 (- x)) by lia.
  rewrite Pos.mul_1_r, Z2Pos.id by (apply Z.pow_pos_nonneg; lia).
  replace (- x) with ((- x - k) + k) at 1 by lia.
  rewrite Z.pow_add_r by lia.
  pose proof (Z.pow_pos_nonneg 2 k ltac:(lia) ltac:(lia)).
  rewrite Z.pow_0_r. nia.
Qed.

Lemma to_Q_ge (m x j k : Z) :
  x ≤ - k → 0 ≤ k → j * 2 ^ (- x - k) ≤ m →
  (inject_Z j <= to_Q (Float m x) * inject_Z (2 ^ k))%Q.
Proof.
  intros Hx Hk Hm. unfold to_Q, Qle, Qmult, inject_Z. cbn [mant expo Qnum Qden].
  rewrite (Z.max_l 0 x), (Z.max_r 0 (- x)) by lia.
  rewrite Pos.mul_1_r, Z2Pos.id by (apply Z.pow_pos_nonneg; lia).
  replace (- x) with ((- x - k) + k) at 1 by lia.
  rewrite Z.pow_add_r by lia.
  pose proof (Z.pow_pos_nonneg 2 k ltac:(lia) ltac:(lia)).
  rewrite Z.pow_0_r. nia.
Qed.

(** Rounding does not cross a multiple of [2 ^ (- k)] that is a float. *)
Lemma round_le (q : Q) (j k : Z) :
  0 ≤ k ≤ 53 →
  (0 <= q)%Q → (q * inject_Z (2 ^ k) < inject_Z (2 ^ 53))%Q →
  (q * inject_Z (2 ^ k) <= inject_Z j)%Q →
  (to_Q (round q) * inject_Z (2 ^ k) <= inject_Z j)%Q.
Proof.
  intros Hk H0 Hlt Hle. destruct q as [a d].
  unfold Qle, Qlt, Qmult, inject_Z in H0, Hlt, Hle. cbn [Qnum Qden] in H0, Hlt, Hle.
  rewrite Pos.mul_1_r in Hlt, Hle. rewrite Z.mul_1_r in H0, Hlt, Hle.
  unfold round. cbn [Qnum Qden].
  destruct (Z.eqb_spec a 0) as [->|Ha].
  - unfold to_Q, Qle, Qmult, inject_Z. cbn. lia.
  - pose proof (round_expo a d k ltac:(lia) Hk Hlt) as Hx.
    set (x := Z.max (ilog2 (Z.abs a) (Zpos d) - 52) (-1074)) in *.
    apply to_Q_le; [done|lia|].
    rewrite (Z.max_r 0 (- x)), (Z.max_l 0 x), Z.pow_0_r, Z.mul_1_r by lia.
    apply nearest_even_le; [lia|].
    assert (2 ^ (- x) = 2 ^ (- x - k) * 2 ^ k) as ->.
    { rewrite <- Z.pow_add_r by lia. f_equal. lia. }
    pose proof (Z.pow_pos_nonneg 2 (- x - k) ltac:(lia) ltac:(lia)).
    pose proof (Z.pow_pos_nonneg 2 k ltac:(lia) ltac:(lia)). nia.
Qed.

Lemma round_ge (q : Q) (j k : Z) :
  0 ≤ k ≤ 53 →
  (0 <= q)%Q → (q * inject_Z (2 ^ k) < inject_Z (2 ^ 53))%Q →
  (inject_Z j <= q * inject_Z (2 ^ k))%Q →
  (inject_Z j <= to_Q (round q) * inject_Z (2 ^ k))%Q.
Proof.
  intros Hk H0 Hlt Hle. destruct q as [a d].
  unfold Qle, Qlt, Qmult, inject_Z in H0, Hlt, Hle. cbn [Qnum Qden] in H0, Hlt, Hle.
  rewrite Pos.mul_1_r in Hlt, Hle. rewrite Z.mul_1_r in H0, Hlt, Hle.
  unfold round. cbn [Qnum Qden].
  destruct (Z.eqb_spec a 0) as [->|Ha].
  - unfold to_Q, Qle, Qmult, inject_Z. cbn. lia.
  - pose proof (round_expo a d k ltac:(lia) Hk Hlt) as Hx.
    set (x := Z.max (ilog2 (Z.abs a) (Zpos d) - 52) (-1074)) in *.
    apply to_Q_ge; [done|lia|].
    rewrite (Z.max_r 0 (- x)), (Z.max_l 0 x), Z.pow_0_r, Z.mul_1_r by lia.
    apply nearest_even_ge; [lia|].
    assert (2 ^ (- x) = 2 ^ (- x - k) * 2 ^ k) as ->.
    { rewrite <- Z.pow_add_r by lia. f_equal. lia. }
    pose proof (Z.pow_pos_nonneg 2 (- x - k) ltac:(lia) ltac:(lia)).
    pose proof (Z.pow_pos_nonneg 2 k ltac:(lia) ltac:(lia)). nia.
Qed.


Lemma to_Q_nonneg (x : float) : (0 <= to_Q x)%Q ↔ 0 ≤ mant x.
Proof.
  unfold to_Q, Qle. cbn [Qnum Qden]. rewrite Z.mul_1_r, Z.mul_0_l.
  pose proof (Z.pow_pos_nonneg 2 (Z.max 0 (expo x)) ltac:(lia) ltac:(lia)). nia.
Qed.

Lemma round_nonneg (q : Q) : (0 <= q)%Q → 0 ≤ mant (round q).
Proof.
  destruct q as [a d]. unfold Qle, round. cbn [Qnum Qden]. rewrite Z.mul_1_r, Z.mul_0_l.
  intros Ha. destruct (Z.eqb_spec a 0); [done|]. cbn [mant].
  apply nearest_even_ge.
  - pose proof (Z.pow_pos_nonneg 2 (Z.max 0 (Z.max (ilog2 (Z.abs a) (Zpos d) - 52) (-1074)))
                  ltac:(lia) ltac:(lia)). nia.
  - pose proof (Z.pow_pos_nonneg 2 (Z.max 0 (- Z.max (ilog2 (Z.abs a) (Zpos d) - 52) (-1074)))
                  ltac:(lia) ltac:(lia)). nia.
Qed.

(** [trunc] is the integer part of a float that is not negative. *)
Lemma trunc_floor (x : float) :
  0 ≤ mant x →
  0 ≤ trunc x ∧ (inject_Z (trunc x) <= to_Q x)%Q ∧ (to_Q x < inject_Z (trunc x + 1))%Q.
Proof.
  destruct x as [m x]. cbn [mant]. intros Hm.
  unfold trunc, to_Q, Qle, Qlt, inject_Z. cbn [mant expo Qnum Qden].
  destruct (Z.leb_spec 0 x) as [Hx|Hx].
  - rewrite (Z.max_r 0 x), (Z.max_l 0 (- x)) by lia. simpl Z.to_pos.
    pose proof (Z.pow_pos_nonneg 2 x ltac:(lia) ltac:(lia)). nia.
  - rewrite (Z.max_l 0 x), (Z.max_r 0 (- x)) by lia.
    pose proof (Z.pow_pos_nonneg 2 (- x) ltac:(lia) ltac:(lia)) as HD.
    rewrite Z2Pos.id by done. rewrite Z.quot_div_nonneg by lia.
    pose proof (Z.div_mod m (2 ^ (- x)) ltac:(lia)).
    pose proof (Z.mod_pos_bound m (2 ^ (- x)) HD).
    pose proof (Z.div_pos m (2 ^ (- x)) Hm HD).
    rewrite Z.pow_0_r. nia.
Qed.

Lemma is_finite_le (x : float) (n : Z) :
  0 ≤ mant x → (to_Q x <= inject_Z n)%Q → n < 2 ^ 1024 → is_finite x = true.
Proof.
  destruct x as [m x]. unfold is_finite, to_Q, Qle, inject_Z. cbn [mant expo Qnum Qden].
  intros Hm Hle Hn. apply Z.ltb_lt. rewrite Z.abs_eq by done.
  pose proof (Z.pow_pos_nonneg 2 (Z.max 0 (- x)) ltac:(lia) ltac:(lia)) as HD.
  rewrite Z2Pos.id in Hle by done. nia.
Qed.

End binary64_facts.

(** ** [int(n_batches*split_frac)] *)

Section int_mul_facts.
Import Float.

Lemma inject_Z_nonneg (n : Z) : 0 ≤ n → (0 <= inject_Z n)%Q.
Proof. intros Hn. change 0%Q with (inject_Z 0). by rewrite <- Zle_Qle. Qed.

Lemma round_le_int (q : Q) (j : Z) :
  (0 <= q)%Q → (q < inject_Z (2 ^ 53))%Q → (q <= inject_Z j)%Q →
  (to_Q (round q) <= inject_Z j)%Q.
Proof.
  intros H0 Hlt Hle.
  assert (∀ r : Q, r * inject_Z (2 ^ 0) == r)%Q as H1 by (intros r; change (2 ^ 0) with 1; ring).
  rewrite <- (H1 (to_Q (round q))). apply round_le; [lia|done|by rewrite H1..].
Qed.

Lemma round_ge_int (q : Q) (j : Z) :
  (0 <= q)%Q → (q < inject_Z (2 ^ 53))%Q → (inject_Z j <= q)%Q →
  (inject_Z j <= to_Q (round q))%Q.
Proof.
  intros H0 Hlt Hle.
  assert (∀ r : Q, r * inject_Z (2 ^ 0) == r)%Q as H1 by (intros r; change (2 ^ 0) with 1; ring).
  rewrite <- (H1 (to_Q (round q))). apply round_ge; [lia|done|by rewrite H1..].
Qed.

(** An integer below [2 ^ 53] is a float. *)
Lemma of_int_exact (n : Z) :
  0 ≤ n < 2 ^ 53 → 0 ≤ mant (of_int n) ∧ (to_Q (of_int n) == inject_Z n)%Q.
Proof.
  intros Hn. unfold of_int.
  assert (0 <= inject_Z n)%Q as H0 by (apply inject_Z_nonneg; lia).
  assert (inject_Z n < inject_Z (2 ^ 53))%Q as Hlt by (rewrite <- Zlt_Qlt; lia).
  split; [by apply round_nonneg|].
  apply Qle_antisym; [apply round_le_int | apply round_ge_int]; try done; apply Qle_refl.
Qed.

Lemma int_mul_inv (n : Z) (f : Qc) (si : Z) :
  Py.int_mul n f = Ok si → si = trunc (mul (of_int n) (round (this f))).
Proof.
  unfold Py.int_mul. destruct (negb _); [done|]. destruct (negb _); [done|].
  by intros [= <-].
Qed.


(** A fraction between 0 and 1 of [n] batches is between 0 and [n]
    batches. *)
Lemma int_mul_bounds (n : Z) (f : Qc) :
  0 ≤ n < 2 ^ 53 → (0 ≤ f)%Qc → (f ≤ 1)%Qc →
  ∃ split_idx, Py.int_mul n f = Ok split_idx ∧ 0 ≤ split_idx ≤ n.
Proof.
  intros Hn Hf0 Hf1. unfold Qcle in Hf0, Hf1. simpl in Hf0, Hf1.
  destruct (of_int_exact n Hn) as [Ha0 Ha].
  set (a := of_int n) in *. set (b := round (this f)).
  assert (0 ≤ mant b) as Hb0 by by apply round_nonneg.
  assert (to_Q b <= inject_Z 1)%Q as Hb1.
  { apply round_le_int; [done| |done].
    eapply Qle_lt_trans; [exact Hf1|]. by vm_compute. }
  apply to_Q_nonneg in Hb0 as Hb0'.
  assert (0 <= inject_Z n)%Q as Hn0 by (apply inject_Z_nonneg; lia).
  assert (inject_Z n < inject_Z (2 ^ 53))%Q as Hn1 by (rewrite <- Zlt_Qlt; lia).
  change (inject_Z 1) with 1%Q in Hb1.
  assert (0 <= to_Q a * to_Q b)%Q as Hp0 by nra.
  assert (to_Q a * to_Q b <= inject_Z n)%Q as Hp1 by nra.
  assert (0 ≤ mant (mul a b)) as Hm0 by by apply round_nonneg.
  assert (to_Q (mul a b) <= inject_Z n)%Q as Hm1.
  { apply round_le_int; [done| |done]. lra. }
  exists (trunc (mul a b)). split.
  - unfold Py.int_mul. fold a b.
    rewrite (is_finite_le a n), (is_finite_le (mul a b) n); [done|done|done|lia|done| |lia].
    rewrite Ha. apply Qle_refl.
  - destruct (trunc_floor (mul a b) Hm0) as (Ht0 & Ht1 & _).
    split; [done|]. rewrite Zle_Qle. lra.
Qed.

Lemma int_mul_nonneg (n : Z) (f : Qc) (split_idx : Z) :
  0 ≤ n → (0 ≤ f)%Qc → Py.int_mul n f = Ok split_idx → 0 ≤ split_idx.
Proof.
  intros Hn Hf Hmul. apply int_mul_inv in Hmul as ->.
  unfold Qcle in Hf. simpl in Hf.
  assert (0 ≤ mant (of_int n)) as Ha.
  { apply round_nonneg. by apply inject_Z_nonneg. }
  assert (0 ≤ mant (round (this f))) as Hb by by apply round_nonneg.
  apply to_Q_nonneg in Ha, Hb.
  apply trunc_floor, round_nonneg. by apply Qmult_le_0_compat.
Qed.

(** The default split keeps nine tenths of the batches, rounded down. *)
Lemma int_mul_default (n : Z) :
  0 ≤ n < 2 ^ 48 → Py.int_mul n split_frac_default = Ok (9 * n / 10).
Proof.
  intros Hn.
  destruct (of_int_exact n ltac:(lia)) as [Ha0 Ha].
  set (a := of_int n) in *.
  set (b := Float 8106479329266893 (-53)).
  assert (round (this split_frac_default) = b) as Hb by (by vm_compute).
  assert (to_Q b == 8106479329266893 # 9007199254740992)%Q as HbQ by (by vm_compute).
  set (m := 9 * n / 10).
  assert (10 * m ≤ 9 * n < 10 * m + 10) as Hm.
  { pose proof (Z.div_mod (9 * n) 10 ltac:(lia)).
    pose proof (Z.mod_pos_bound (9 * n) 10 ltac:(lia)). unfold m. lia. }
  assert (0 <= inject_Z n)%Q as Hn0 by (apply inject_Z_nonneg; lia).
  assert (inject_Z n < inject_Z (2 ^ 48))%Q as Hn1 by (rewrite <- Zlt_Qlt; lia).
  assert (inject_Z 10 * inject_Z m <= inject_Z 9 * inject_Z n)%Q as Hm1.
  { rewrite <- !inject_Z_mult, <- Zle_Qle. lia. }
  assert (inject_Z 9 * inject_Z n <= inject_Z 10 * inject_Z m + inject_Z 9)%Q as Hm2.
  { rewrite <- !inject_Z_mult, <- inject_Z_plus, <- Zle_Qle. lia. }
  change (inject_Z (2 ^ 48)) with (281474976710656 # 1)%Q in Hn1.
  change (inject_Z 10) with (10 # 1)%Q in Hm1, Hm2.
  change (inject_Z 9) with (9 # 1)%Q in Hm1, Hm2.
  set (p := (to_Q a * to_Q b)%Q).
  assert (p == inject_Z n * (8106479329266893 # 9007199254740992))%Q as Hp
    by (unfold p; by rewrite Ha, HbQ).
  assert (0 <= p)%Q as Hp0 by (rewrite Hp; lra).
  assert (mul a b = round p) as Hmul by done.
  assert (0 ≤ mant (round p)) as Hr0 by by apply round_nonneg.
  assert (inject_Z m <= to_Q (round p))%Q as Hlo.
  { apply round_ge_int; [done| |].
    - rewrite Hp. change (inject_Z (2 ^ 53)) with (9007199254740992 # 1)%Q. lra.
    - rewrite Hp. lra. }
  assert (to_Q (round p) * inject_Z (2 ^ 4) <= inject_Z (16 * m + 15))%Q as Hhi.
  { apply round_le; [lia|done|..].
    - rewrite Hp. change (inject_Z (2 ^ 53)) with (9007199254740992 # 1)%Q.
      change (inject_Z (2 ^ 4)) with (16 # 1)%Q. lra.
    - rewrite Hp, inject_Z_plus, inject_Z_mult.
      change (inject_Z (2 ^ 4)) with (16 # 1)%Q.
      change (inject_Z 16) with (16 # 1)%Q. change (inject_Z 15) with (15 # 1)%Q. lra. }
  rewrite inject_Z_plus, inject_Z_mult in Hhi.
  change (inject_Z (2 ^ 4)) with (16 # 1)%Q in Hhi.
  change (inject_Z 16) with (16 # 1)%Q in Hhi. change (inject_Z 15) with (15 # 1)%Q in Hhi.
  destruct (trunc_floor (round p) Hr0) as (Ht0 & Ht1 & Ht2).
  rewrite inject_Z_plus in Ht2. change (inject_Z 1) with 1%Q in Ht2.
  unfold Py.int_mul. fold a. rewrite Hb, Hmul.
  rewrite (is_finite_le a n), (is_finite_le (round p) (m + 1)); [|done| |lia|done| |lia].
  - cbn [negb]. f_equal.
    assert (trunc (round p) < m + 1) as Hlt
      by (rewrite Zlt_Qlt, inject_Z_plus; change (inject_Z 1) with 1%Q; lra).
    assert (m < trunc (round p) + 1) as Hgt
      by (rewrite Zlt_Qlt, inject_Z_plus; change (inject_Z 1) with 1%Q; lra).
    lia.
  - rewrite inject_Z_plus. change (inject_Z 1) with 1%Q. lra.
  - rewrite Ha. apply Qle_refl.
Qed.
End int_mul_facts.

(** ** Slices and chunks *)

Section list_facts.
Context {A : Type}.
Implicit Types l : list A.

Lemma take_min_length l n : take (n `min` length l) l = take n l.
Proof.
  destruct (decide (n ≤ length l)%nat).
  - by rewrite Nat.min_l.
  - rewrite Nat.min_r by lia. rewrite firstn_all, take_ge; [done | lia].
Qed.

Lemma slice_prefix l (m : Z) :
  0 ≤ m → Py.slice None (Some m) l = take (Z.to_nat m) l.
Proof.
  intros Hm. unfold Py.slice, Py.slice_bounds, Py.clamp. simpl.
  destruct (Z.ltb_spec m 0); [lia|].
  rewrite drop_0, Nat.sub_0_r, Z2Nat.inj_min, Nat2Z.id.
  apply take_min_length.
Qed.

Lemma slice_shifted l (m : Z) :
  0 ≤ m → Py.slice (Some 1) (Some (m + 1)) l = take (Z.to_nat m) (drop 1 l).
Proof.
  intros Hm. unfold Py.slice, Py.slice_bounds, Py.clamp. cbn [from_option].
  destruct (Z.ltb_spec (m + 1) 0); [lia|].
  destruct (Z.ltb_spec 1 0); [lia|].
  destruct l as [|a l].
  { rewrite !drop_nil, !take_nil. done. }
  replace (Z.to_nat (Z.min 1 (Z.of_nat (length (a :: l))))) with 1%nat
    by (cbn [length]; lia).
  replace (Z.to_nat (Z.min (m + 1) (Z.of_nat (length (a :: l)))) - 1)%nat
    with (Z.to_nat m `min` length (drop 1 (a :: l)))%nat
    by (rewrite length_drop; cbn [length]; lia).
  apply take_min_length.
Qed.

(** [l[:k]] and [l[k:]] always partition [l], whatever the integer [k]. *)
Lemma slice_partition l (k : Z) :
  Py.slice None (Some k) l ++ Py.slice (Some k) None l = l.
Proof.
  unfold Py.slice, Py.slice_bounds. simpl.
  rewrite drop_0, Nat.sub_0_r.
  assert (Py.clamp (length l) k ≤ length l)%nat as Hle.
  { unfold Py.clamp. destruct (Z.ltb_spec k 0); lia. }
  rewrite (take_ge (drop _ l)) by (rewrite length_drop; lia).
  apply take_drop.
Qed.

Lemma length_chunks k n l : length (chunks k n l) = n.
Proof. revert l. induction n as [|n IH]; intros l; simpl; [done|]. by rewrite IH. Qed.

Lemma lookup_chunks k n l i :
  (i < n)%nat → chunks k n l !! i = Some (take k (drop (i * k) l)).
Proof.
  revert l i. induction n as [|n IH]; intros l i Hi; [lia|].
  destruct i as [|i]; simpl.
  - by rewrite drop_0.
  - rewrite IH by lia. by rewrite drop_drop.
Qed.

Lemma concat_chunks k n l :
  length l = (n * k)%nat → concat (chunks k n l) = l.
Proof.
  revert l. induction n as [|n IH]; intros l Hl; simpl.
  - by destruct l.
  - rewrite IH; [apply take_drop|]. rewrite length_drop. lia.
Qed.

Lemma Forall_length_chunks k n l :
  (n * k ≤ length l)%nat → Forall (λ r, length r = k) (chunks k n l).
Proof.
  revert l. induction n as [|n IH]; intros l Hl; simpl; constructor.
  - rewrite length_take. lia.
  - apply IH. rewrite length_drop. lia.
Qed.

(** [np.split] succeeds exactly on a positive number of sections that
    divides the length, and then cuts the array into equal pieces. *)
Lemma split_Ok l (sections : Z) r :
  Np.split l sections = Ok r ↔
  0 < sections ∧ ∃ k : nat,
    length l = (Z.to_nat sections * k)%nat ∧ r = chunks k (Z.to_nat sections) l.
Proof.
  unfold Np.split, Py.len. split.
  - destruct (Z.eqb_spec sections 0); [done|].
    destruct (Z.eqb_spec (Z.of_nat (length l) mod sections) 0) as [Hmod|]; [|done].
    simpl. destruct (Z.ltb_spec sections 0); [done|].
    intros [= <-]. split; [lia|].
    exists (Z.to_nat (Z.of_nat (length l) / sections)). split; [|done].
    apply Z.div_exact in Hmod; [|lia].
    assert (0 ≤ Z.of_nat (length l) / sections) by (apply Z.div_pos; lia).
    nia.
  - intros [Hpos (k & Hlen & ->)].
    destruct (Z.eqb_spec sections 0); [lia|].
    assert (Z.of_nat (length l) = Z.of_nat k * sections) as HZ by nia.
    rewrite HZ, Z.mod_mul, Z.div_mul by lia. simpl.
    destruct (Z.ltb_spec sections 0); [lia|].
    by rewrite Nat2Z.id.
Qed.

End list_facts.

Lemma stack_chunks k n (l : list Z) :
  (0 < n)%nat → (n * k ≤ length l)%nat →
  Np.stack (chunks k n l) = Ok (Array2 k (chunks k n l)).
Proof.
  intros Hn Hl. destruct n as [|n]; [lia|]. simpl.
  assert (length (take k l) = k) as Hk by (rewrite length_take; lia).
  rewrite Hk.
  assert (forallb (λ r, Nat.eqb (length r) k) (chunks k n (drop k l)) = true) as ->; [|done].
  apply forallb_forall. intros r Hr. apply Nat.eqb_eq.
  revert r Hr. apply List.Forall_forall, Forall_length_chunks.
  rewrite length_drop. lia.
Qed.

(** ** The batch splitter, step by step *)

(** [int(L / s) * s] is the largest multiple of [s] (in absolute value) that
    fits in [L]. *)
Lemma quot_mul_bounds (L s : Z) :
  0 ≤ L → s ≠ 0 →
  0 ≤ Z.quot L s * s ≤ L ∧ L - Z.quot L s * s < Z.abs s.
Proof.
  intros HL Hs.
  assert (∀ t, 0 < t → 0 ≤ Z.quot L t * t ≤ L ∧ L - Z.quot L t * t < t) as Hpos.
  { intros t Ht. rewrite Z.quot_div_nonneg by lia.
    assert (t ≠ 0) as Ht0 by lia. pose proof (Z.div_mod L t Ht0).
    pose proof (Z.mod_pos_bound L t Ht). pose proof (Z.div_pos L t HL Ht). nia. }
  destruct (Z.lt_trichotomy s 0) as [Hneg|[->|Hp]]; [|done|].
  - assert (Z.quot L s = - Z.quot L (- s)) as ->.
    { rewrite <- Z.quot_opp_r by lia. f_equal. lia. }
    specialize (Hpos (- s)). lia.
  - specialize (Hpos s). lia.
Qed.

Lemma split_data_factor chars batch_size num_steps split_frac :
  split_data chars batch_size num_steps split_frac =
  n_batches ← Py.int_div (Py.len chars) (batch_size * num_steps);
  '(x, y) ← split_data_xy chars batch_size num_steps;
  split_idx ← Py.int_mul n_batches split_frac;
  Ok (cols None (Some (split_idx * num_steps)) x,
      cols None (Some (split_idx * num_steps)) y,
      cols (Some (split_idx * num_steps)) None x,
      cols (Some (split_idx * num_steps)) None y).
Proof.
  unfold split_data, split_data_xy.
  destruct (Py.int_div _ _) as [n|e]; cbn [mbind result_bind]; [|done].
  destruct (Np.split (Py.slice None _ _) _) as [xs|]; cbn [mbind result_bind]; [|done].
  destruct (Np.stack xs) as [x|]; cbn [mbind result_bind]; [|done].
  destruct (Np.split (Py.slice (Some 1) _ _) _) as [ys|]; cbn [mbind result_bind]; [|done].
  by destruct (Np.stack ys) as [y|].
Qed.

(** What [x] and [y] are whenever the first half of [split_data] returns:
    [m] characters are kept, [k] per row of [x] and [k'] per row of [y]. *)
Lemma split_data_xy_inv chars batch_size num_steps x y :
  split_data_xy chars batch_size num_steps = Ok (x, y) →
  let n_batches := Z.quot (Py.len chars) (batch_size * num_steps) in
  let m := Z.to_nat (n_batches * (batch_size * num_steps)) in
  let k := Z.to_nat (n_batches * num_steps) in
  let B := Z.to_nat batch_size in
  0 < batch_size ∧ num_steps ≠ 0 ∧ 0 ≤ n_batches * num_steps ∧
  m = (B * k)%nat ∧ (m ≤ length chars)%nat ∧
  x = Array2 k (chunks k B (take m chars)) ∧
  ∃ k', y = Array2 k' (chunks k' B (take m (drop 1 chars))) ∧
        length (take m (drop 1 chars)) = (B * k')%nat ∧
        (k' = k ∨ (batch_size = 1 ∧ S k' = k)).
Proof.
  unfold split_data_xy, Py.int_div.
  destruct (Z.eqb_spec (batch_size * num_steps) 0) as [|Hs]; [done|]. simpl.
  set (n := Z.quot (Py.len chars) (batch_size * num_steps)).
  destruct (quot_mul_bounds (Py.len chars) (batch_size * num_steps)) as [[Hm0 Hm1] Hm2];
    [unfold Py.len; lia | done |].
  fold n in Hm0, Hm1, Hm2.
  rewrite slice_prefix, slice_shifted by done.
  set (m := Z.to_nat (n * (batch_size * num_steps))).
  destruct (Np.split (take m chars) batch_size) as [xs|] eqn:Hxs; simpl; [|done].
  apply split_Ok in Hxs as [HB (k & Hk & ->)].
  assert (length (take m chars) = m) as Hlen.
  { rewrite length_take. unfold Py.len in Hm1. lia. }
  rewrite Hlen in Hk.
  assert (0 < Z.to_nat batch_size)%nat as HB' by lia.
  rewrite stack_chunks by (rewrite ?Hlen; lia). simpl.
  destruct (Np.split (take m (drop 1 chars)) batch_size) as [ys|] eqn:Hys; simpl; [|done].
  apply split_Ok in Hys as [_ (k' & Hk' & ->)].
  rewrite stack_chunks by lia. simpl.
  intros [= <- <-].
  assert (num_steps ≠ 0) as HT by lia.
  assert (Z.of_nat k = n * num_steps) as HkZ.
  { apply (Z.mul_cancel_l _ _ batch_size); [lia|]. unfold m in Hk. nia. }
  assert (k = Z.to_nat (n * num_steps)) as Hkeq by lia.
  rewrite <- Hkeq.
  split_and!; try done; try lia.
  { unfold Py.len in Hm1. lia. }
  exists k'. split_and!; [done | done |].
  rewrite length_take, length_drop in Hk'.
  unfold Py.len in Hm1.
  destruct (decide (m ≤ length chars - 1)%nat) as [Hle|Hgt].
  - left. apply (Nat.mul_cancel_l _ _ (Z.to_nat batch_size)); lia.
  - destruct (decide (batch_size = 1)) as [->|HB1]; [right; lia|].
    exfalso. assert (m = S (Z.to_nat batch_size * k')) as Hm' by lia.
    rewrite Hk in Hm'.
    assert (Z.to_nat batch_size * (k - k') = 1)%nat as Hone by nia.
    apply Nat.eq_mul_1 in Hone. lia.
Qed.

Lemma get_chunks k n (l : list Z) i j :
  (i < n)%nat → (j < k)%nat →
  get (Array2 k (chunks k n l)) i j = l !! (i * k + j)%nat.
Proof.
  intros Hi Hj. unfold get. simpl.
  rewrite lookup_chunks by done. simpl.
  rewrite lookup_take_lt by done. apply lookup_drop.
Qed.

Lemma get_chunks_Some k n (l : list Z) i j v :
  get (Array2 k (chunks k n l)) i j = Some v → (i < n)%nat ∧ (j < k)%nat.
Proof.
  unfold get. simpl. intros H.
  destruct (chunks k n l !! i) as [r|] eqn:Hr; [|done]. simpl in H.
  apply lookup_lt_Some in Hr as Hi. rewrite length_chunks in Hi.
  rewrite lookup_chunks in Hr by done. injection Hr as <-.
  split; [done|]. apply lookup_lt_Some in H. rewrite length_take in H. lia.
Qed.

Lemma chunks_0 {A} n (l : list A) : chunks 0 n l = replicate n [].
Proof. induction n as [|n IH]; simpl; [done|]. by rewrite drop_0, IH. Qed.

Lemma zip_slice_partition (k : Z) (rs : list (list Z)) :
  zip_with app (map (Py.slice None (Some k)) rs) (map (Py.slice (Some k) None) rs) = rs.
Proof.
  induction rs as [|r rs IH]; simpl; [done|].
  by rewrite slice_partition, IH.
Qed.

(** The train and validation matrices of [split_data] are the columns of
    [x] and [y] before and after the split boundary: side by side they give
    [x] and [y] back. *)
Lemma split_data_inv chars batch_size num_steps split_frac train_x train_y val_x val_y :
  split_data chars batch_size num_steps split_frac = Ok (train_x, train_y, val_x, val_y) →
  ∃ x y,
    split_data_xy chars batch_size num_steps = Ok (x, y) ∧
    zip_with app (rows train_x) (rows val_x) = rows x ∧
    zip_with app (rows train_y) (rows val_y) = rows y.
Proof.
  rewrite split_data_factor.
  destruct (Py.int_div _ _) as [n|]; cbn [mbind result_bind]; [|done].
  destruct (split_data_xy _ _ _) as [[x y]|]; cbn [mbind result_bind]; [|done].
  destruct (Py.int_mul n split_frac) as [split_idx|]; cbn [mbind result_bind]; [|done].
  intros [= <- <- <- <-]. exists x, y. split; [done|].
  unfold cols.
  destruct (Py.slice_bounds (ncols x) _ _), (Py.slice_bounds (ncols x) _ _),
    (Py.slice_bounds (ncols y) _ _), (Py.slice_bounds (ncols y) _ _); simpl.
  by rewrite !zip_slice_partition.
Qed.


(** Row [i] of [x] is a contiguous shard of the corpus itself. *)
Lemma shard_of_prefix (chars : list Z) (k m i : nat) :
  ((i + 1) * k ≤ m)%nat →
  take k (drop (i * k) (take m chars)) = take k (drop (i * k) chars).
Proof.
  intros Hi. rewrite !take_drop_commute, take_take.
  do 2 f_equal. nia.
Qed.

(** ** Claims about the batch splitter *)

(** C8. Whenever [split_data] returns, the rows of the batch matrix [x]
    (the training columns followed by the validation columns), concatenated
    in row order, are the corpus truncated to [n_batches * slice_size]
    characters, and row [i] holds the corpus positions
    [i * shard_len, (i + 1) * shard_len), where
    [shard_len = n_batches * num_steps] is the row length. *)
Theorem split_data_rows_roundtrip
    chars batch_size num_steps split_frac train_x train_y val_x val_y :
  split_data chars batch_size num_steps split_frac = Ok (train_x, train_y, val_x, val_y) →
  let n_batches := Z.quot (Py.len chars) (batch_size * num_steps) in
  ∃ x y,
    split_data_xy chars batch_size num_steps = Ok (x, y) ∧
    rows x = zip_with app (rows train_x) (rows val_x) ∧
    length (rows x) = Z.to_nat batch_size ∧
    Z.of_nat (ncols x) = n_batches * num_steps ∧
    concat (rows x) = take (Z.to_nat (n_batches * (batch_size * num_steps))) chars ∧
    ∀ i, (i < Z.to_nat batch_size)%nat →
      rows x !! i = Some (take (ncols x) (drop (i * ncols x) chars)) ∧
      ((i + 1) * ncols x ≤ length chars)%nat.
Proof.
  intros Hsd n_batches.
  destruct (split_data_inv _ _ _ _ _ _ _ _ Hsd) as (x & y & Hxy & Hx & _).
  exists x, y. split; [done|]. split; [done|].
  destruct (split_data_xy_inv _ _ _ _ _ Hxy)
    as (HB & HT & Hk0 & Hm & Hlen & -> & _).
  fold n_batches in Hk0, Hm, Hlen |- *. simpl.
  set (k := Z.to_nat (n_batches * num_steps)) in *.
  set (m := Z.to_nat (n_batches * (batch_size * num_steps))) in *.
  split_and!.
  - apply length_chunks.
  - lia.
  - apply concat_chunks. rewrite length_take. lia.
  - intros i Hi. rewrite lookup_chunks by done. split.
    + f_equal. apply shard_of_prefix. nia.
    + nia.
Qed.

Lemma split_data_ex :
  split_data ex_chars 2 2 1 = Ok (ex_train_x, ex_train_y, ex_val, ex_val).
Proof. vm_compute. reflexivity. Qed.

Lemma split_data_rows_roundtrip_witness :
  ∃ x y,
    split_data_xy ex_chars 2 2 = Ok (x, y) ∧
    rows x = zip_with app (rows ex_train_x) (rows ex_val) ∧
    length (rows x) = Z.to_nat 2 ∧
    Z.of_nat (ncols x) = Z.quot (Py.len ex_chars) (2 * 2) * 2 ∧
    concat (rows x) = take (Z.to_nat (Z.quot (Py.len ex_chars) (2 * 2) * (2 * 2))) ex_chars ∧
    ∀ i, (i < Z.to_nat 2)%nat →
      rows x !! i = Some (take (ncols x) (drop (i * ncols x) ex_chars)) ∧
      ((i + 1) * ncols x ≤ length ex_chars)%nat.
Proof.
  apply (split_data_rows_roundtrip ex_chars 2 2 1 ex_train_x ex_train_y ex_val ex_val).
  vm_compute. reflexivity.
Defined.



Lemma slice_nil {A} start stop : Py.slice start stop (@nil A) = [].
Proof.
  unfold Py.slice. destruct (Py.slice_bounds _ _ _). by rewrite drop_nil, take_nil.
Qed.

Lemma clamp_0 i : Py.clamp 0 i = 0%nat.
Proof. unfold Py.clamp. destruct (Z.ltb_spec i 0); lia. Qed.

Lemma cols_empty start stop n :
  cols start stop (Array2 0 (replicate n [])) = Array2 0 (replicate n []).
Proof.
  unfold cols, Py.slice_bounds. simpl. f_equal.
  - destruct start, stop; simpl; rewrite ?clamp_0; done.
  - induction n as [|n IH]; simpl; [done|]. by rewrite slice_nil, IH.
Qed.

(** C5, as stated, fails: a corpus of three characters with
    [batch_size = num_steps = 2] has [n_batches = 0], and [split_data]
    raises nothing. *)
Lemma split_data_short_no_error :
  ¬ (Py.int_div (Py.len short_chars) (2 * 2) = Ok 0 →
     ∃ e, split_data short_chars 2 2 split_frac_default = Raise e).
Proof.
  intros H. destruct H as [e He]; [reflexivity|].
  vm_compute in He. discriminate He.
Qed.

(** C5, amended. With a positive [batch_size], a corpus too short for one
    slice ([n_batches = 0]) makes [split_data] return, without any error,
    four empty matrices of shape [(batch_size, 0)]. *)
Theorem split_data_short_corpus chars batch_size num_steps split_frac :
  0 < batch_size →
  Py.int_div (Py.len chars) (batch_size * num_steps) = Ok 0 →
  let empty := Array2 0 (replicate (Z.to_nat batch_size) []) in
  split_data chars batch_size num_steps split_frac = Ok (empty, empty, empty, empty).
Proof.
  intros HB Hn empty. unfold split_data. rewrite Hn. simpl.
  rewrite slice_prefix, slice_shifted by lia.
  rewrite Z.mul_0_l. change (Z.to_nat 0) with 0%nat. rewrite !take_0.
  assert (Np.split (@nil Z) batch_size = Ok (chunks 0 (Z.to_nat batch_size) [])) as ->.
  { apply split_Ok. split; [done|]. exists 0%nat. split; [simpl; lia | done]. }
  simpl. rewrite stack_chunks by (simpl; lia). simpl.
  rewrite chunks_0. by rewrite !cols_empty.
Qed.

Lemma split_data_short_corpus_witness :
  split_data short_chars 2 2 split_frac_default =
  Ok (Array2 0 [[]; []], Array2 0 [[]; []], Array2 0 [[]; []], Array2 0 [[]; []]).
Proof.
  apply (split_data_short_corpus short_chars 2 2 split_frac_default).
  - lia.
  - reflexivity.
Defined.

(** A corpus whose length is an exact positive multiple of the slice size
    leaves the target stream one character short, and with two or more rows
    [np.split] then refuses the uneven division. *)
Lemma split_data_exact_multiple chars batch_size num_steps split_frac :
  2 ≤ batch_size → 0 < num_steps → chars ≠ [] →
  Py.len chars mod (batch_size * num_steps) = 0 →
  split_data chars batch_size num_steps split_frac = Raise ValueError.
Proof.
  intros HB HT Hne Hmod. unfold split_data, Py.int_div.
  assert (0 < batch_size * num_steps) as Hs by nia.
  destruct (Z.eqb_spec (batch_size * num_steps) 0); [lia|]. simpl.
  assert (0 < Py.len chars) as HL.
  { unfold Py.len. destruct chars; [done | simpl; lia]. }
  rewrite Z.quot_div_nonneg by lia.
  apply Z.div_exact in Hmod; [|lia].
  assert (Py.len chars `div` (batch_size * num_steps) * (batch_size * num_steps)
          = Py.len chars) as -> by lia.
  rewrite slice_prefix, slice_shifted by lia.
  unfold Py.len in *. rewrite Nat2Z.id, firstn_all.
  set (q := Z.of_nat (length chars) `div` (batch_size * num_steps)) in *.
  assert (0 ≤ q) by (apply Z.div_pos; lia).
  assert (Np.split chars batch_size
          = Ok (chunks (Z.to_nat (q * num_steps)) (Z.to_nat batch_size) chars)) as ->.
  { apply split_Ok. split; [lia|]. exists (Z.to_nat (q * num_steps)).
    split; [nia | done]. }
  simpl. rewrite stack_chunks by nia. simpl.
  unfold Np.split, Py.len.
  destruct (Z.eqb_spec batch_size 0); [lia|].
  rewrite length_take, length_drop.
  replace (Z.of_nat (length chars `min` (length chars - 1)))
    with (q * num_steps * batch_size - 1) by nia.
  destruct (Z.eqb_spec ((q * num_steps * batch_size - 1) mod batch_size) 0)
    as [Hz|]; [|done].
  exfalso. apply Z.mod_divide in Hz; [|lia]. destruct Hz as [c Hc].
  assert ((q * num_steps - c) * batch_size = 1) as Hone by lia.
  apply Z.mul_eq_1 in Hone. lia.
Qed.

(** C3 at a corpus of exactly one slice, [L = batch_size * num_steps = 4]:
    the claim promises the four matrices, the code raises [ValueError]. *)
Theorem split_data_one_slice_raises :
  Py.len [0; 1; 0; 1] >= 2 * 2 ∧
  split_data [0; 1; 0; 1] 2 2 split_frac_default = Raise ValueError.
Proof. split; [vm_compute; discriminate | vm_compute; reflexivity]. Qed.

(** C2 on the code: for the corpus "ABABABAB" encoded with [A:0, B:1],
    [batch_size = 2], [num_steps = 2] and [split_frac = 1.0], [n_batches] is
    2 as claimed, but [split_data] raises [ValueError] instead of returning
    matrices, so there is no train split to take a first window from. *)
Theorem split_data_ABABABAB_raises :
  Py.int_div (Py.len corpus_ABABABAB) (2 * 2) = Ok 2 ∧
  split_data corpus_ABABABAB 2 2 1 = Raise ValueError.
Proof. split; vm_compute; reflexivity. Qed.

(** With one more character after "ABABABAB" the matrices of C2 do come
    out, and the first window is the claimed one. *)
Example get_batch_ex_first :
  split_data ex_chars 2 2 1 = Ok (ex_train_x, ex_train_y, ex_val, ex_val) ∧
  shape ex_train_x = (2%nat, 4%nat) ∧
  head <$> get_batch [ex_train_x; ex_train_y] 2 =
    Ok (Some [Array2 2 [[0; 1]; [0; 1]]; Array2 2 [[1; 0]; [1; 0]]]).
Proof. split_and!; vm_compute; reflexivity. Qed.

(** ** Claims about the batch iterator *)

Lemma slice_window {A} (r : list A) (lo hi : Z) :
  0 ≤ lo ≤ hi → hi ≤ Py.len r →
  Py.slice (Some lo) (Some hi) r = take (Z.to_nat (hi - lo)) (drop (Z.to_nat lo) r).
Proof.
  unfold Py.len. intros Hlo Hhi.
  unfold Py.slice, Py.slice_bounds, Py.clamp. cbn [from_option].
  destruct (Z.ltb_spec lo 0), (Z.ltb_spec hi 0); try lia.
  rewrite !Z.min_l by lia. f_equal. lia.
Qed.

Lemma cols_window (a : ndarray2) (b T : nat) :
  wf a → ((b + 1) * T ≤ ncols a)%nat →
  cols (Some (Z.of_nat b * Z.of_nat T)) (Some ((Z.of_nat b + 1) * Z.of_nat T)) a =
  Array2 T (map (λ r, take T (drop (b * T) r)) (rows a)).
Proof.
  intros Hwf Hle. unfold cols, Py.slice_bounds, Py.clamp. cbn [from_option].
  destruct (Z.ltb_spec (Z.of_nat b * Z.of_nat T) 0),
    (Z.ltb_spec ((Z.of_nat b + 1) * Z.of_nat T) 0); try lia.
  rewrite !Z.min_l by lia. f_equal; [lia|].
  apply map_ext_in. intros r Hr.
  apply (proj1 (List.Forall_forall _ _) Hwf) in Hr.
  rewrite slice_window by (unfold Py.len; lia).
  f_equal; [lia|]. f_equal. lia.
Qed.

(** C6. For a non-empty family of well-formed matrices of one shape
    [(R, C)] and a window length [T >= 1], [get_batch] yields exactly
    [C / T] tuples; the [b]-th tuple holds, for each input matrix, the slice
    of shape [(R, T)] made of the columns [b*T, (b+1)*T) of every row, so
    no window is short, windows come in increasing column offset, and no
    column at or beyond [(C / T) * T] is ever used. *)
Theorem get_batch_windows (arrs : list ndarray2) (num_steps : Z) (R C : nat) :
  arrs ≠ [] →
  Forall (λ a, wf a ∧ shape a = (R, C)) arrs →
  0 < num_steps →
  let T := Z.to_nat num_steps in
  ∃ ws,
    get_batch arrs num_steps = Ok ws ∧
    length ws = (C `div` T)%nat ∧
    ∀ b, (b < C `div` T)%nat →
      ((b + 1) * T ≤ C `div` T * T)%nat ∧ (C `div` T * T ≤ C)%nat ∧
      ∃ w, ws !! b = Some w ∧ length w = length arrs ∧
        ∀ k a, arrs !! k = Some a →
          ∃ s, w !! k = Some s ∧ shape s = (R, T) ∧ wf s ∧
               rows s = map (λ r, take T (drop (b * T) r)) (rows a).
Proof.
  intros Hne Hall HT T.
  destruct arrs as [|a0 rest]; [done|].
  pose proof (Forall_inv Hall) as [Hwf0 Hshape0].
  unfold get_batch. rewrite Hshape0. unfold Py.int_div.
  destruct (Z.eqb_spec num_steps 0); [lia|]. cbn [mbind result_bind].
  rewrite Z.quot_div_nonneg by lia.
  assert (Z.of_nat C `div` num_steps = Z.of_nat (C `div` T)) as ->.
  { unfold T. rewrite Nat2Z.inj_div, Z2Nat.id by lia. done. }
  set (nb := (C `div` T)%nat).
  assert (0 < T)%nat as HT' by (unfold T; lia).
  assert (nb * T ≤ C)%nat as HnT.
  { unfold nb. rewrite Nat.mul_comm. apply Nat.Div0.mul_div_le. }
  eexists. split; [done|]. split.
  { unfold Py.range. by rewrite length_map, length_seqZ, Nat2Z.id. }
  intros b Hb. split; [nia|]. split; [done|].
  eexists. split.
  { rewrite list_lookup_fmap. unfold Py.range.
    rewrite (lookup_seqZ_lt 0 (Z.of_nat nb) b) by lia. done. }
  split; [by rewrite length_map|].
  intros k a Hka. rewrite list_lookup_fmap, Hka. simpl.
  eexists. split; [done|].
  pose proof (proj1 (Forall_lookup _ _) Hall k a Hka) as [Hwf Hshape].
  unfold shape in Hshape. injection Hshape as HR HC.
  replace (0 + Z.of_nat b) with (Z.of_nat b) by lia.
  replace num_steps with (Z.of_nat T) by (unfold T; lia).
  rewrite cols_window by (rewrite ?HC; done || nia).
  unfold shape, wf. simpl. rewrite length_map, HR.
  split; [done|]. split; [|done].
  apply Forall_map, Forall_forall. intros r Hr.
  apply (proj1 (Forall_forall _ _) Hwf) in Hr.
  rewrite length_take, length_drop. nia.
Qed.

Lemma get_batch_windows_witness :
  ∃ ws,
    get_batch [ex_wide; ex_wide] 2 = Ok ws ∧
    length ws = (5 `div` 2)%nat ∧
    ∀ b, (b < 5 `div` 2)%nat →
      ((b + 1) * 2 ≤ 5 `div` 2 * 2)%nat ∧ (5 `div` 2 * 2 ≤ 5)%nat ∧
      ∃ w, ws !! b = Some w ∧ length w = 2%nat ∧
        ∀ k a, [ex_wide; ex_wide] !! k = Some a →
          ∃ s, w !! k = Some s ∧ shape s = (2%nat, 2%nat) ∧ wf s ∧
               rows s = map (λ r, take 2 (drop (b * 2) r)) (rows a).
Proof.
  apply (get_batch_windows [ex_wide; ex_wide] 2 2 5).
  - discriminate.
  - repeat constructor.
  - lia.
Defined.

Example get_batch_ex_wide :
  get_batch [ex_wide] 2 =
  Ok [[Array2 2 [[0; 1]; [5; 6]]]; [Array2 2 [[2; 3]; [7; 8]]]].
Proof. vm_compute. reflexivity. Qed.

(** ** Claims about the vocabulary builder *)

Section dict_facts.
Context `{Countable K} {V : Type}.
Implicit Types items : list (K * V).

Lemma foldl_insert_lookup items (d : gmap K V) k v :
  NoDup (items.*1) →
  foldl (λ d kv, <[kv.1 := kv.2]> d) d items !! k = Some v ↔
  (k, v) ∈ items ∨ ((k ∉ fst <$> items) ∧ (d !! k = Some v)).
Proof.
  revert d. induction items as [|[k0 v0] items IH]; intros d Hnd; simpl.
  { rewrite elem_of_nil. split; [by right; split; [apply not_elem_of_nil|] | by intros [[]|[_ ?]]]. }
  apply NoDup_cons in Hnd as [Hk0 Hnd]. rewrite IH by done.
  rewrite elem_of_cons, not_elem_of_cons.
  destruct (decide (k = k0)) as [->|Hne].
  - rewrite lookup_insert_eq. split.
    + intros [Hin|[_ [= ->]]]; [|by left; left].
      exfalso. apply Hk0. by apply (list_elem_of_fmap_2 fst) in Hin.
    + intros [[[= ->]|Hin]|[[? _] _]]; [by right | by left | done].
  - rewrite lookup_insert_ne by done. split.
    + intros [Hin|[Hk Hd]]; [by left; right | by right].
    + intros [[[= -> ->]|Hin]|[[_ Hk] Hd]]; [done | by left | by right].
Qed.

Lemma dict_lookup items k v :
  NoDup (items.*1) → dict items !! k = Some v ↔ (k, v) ∈ items.
Proof.
  intros Hnd. unfold dict. rewrite foldl_insert_lookup by done.
  rewrite lookup_empty. split; [intros [?|[_ ?]]; done | by left].
Qed.

End dict_facts.

Lemma elem_of_enumerate {A} (l : list A) i x :
  (i, x) ∈ enumerate l ↔ l !! i = Some x.
Proof.
  unfold enumerate. rewrite elem_of_lookup_imap. split.
  - by intros (j & y & [= -> ->] & Hj).
  - intros Hi. by exists i, x.
Qed.

Lemma fst_enumerate {A} (l : list A) : (enumerate l).*1 = seq 0 (length l).
Proof.
  unfold enumerate. rewrite fmap_imap.
  rewrite (imap_ext _ (λ j _, j)) by done.
  rewrite (imap_seq_0 l (λ j, j)). apply list_fmap_id.
Qed.

Lemma snd_enumerate {A} (l : list A) : (enumerate l).*2 = l.
Proof.
  unfold enumerate. rewrite fmap_imap.
  rewrite (imap_ext _ (const id)) by done.
  rewrite imap_const. apply list_fmap_id.
Qed.

Section vocabulary_facts.
Variable set_iter : list ascii → list ascii.
Hypothesis Hset : set_order set_iter.

Lemma vocab_to_int_lookup text c i :
  vocab_to_int set_iter text !! c = Some i ↔ vocab set_iter text !! i = Some c.
Proof.
  unfold vocab_to_int. rewrite dict_lookup.
  - rewrite list_elem_of_fmap. split.
    + intros ([j x] & [= -> ->] & Hin). by apply elem_of_enumerate.
    + intros Hi. exists (i, c). split; [done|]. by apply elem_of_enumerate.
  - rewrite <- list_fmap_compose.
    rewrite (list_fmap_ext _ snd (enumerate (vocab set_iter text))) by done.
    rewrite snd_enumerate. apply (set_iter_NoDup _ Hset).
Qed.

Lemma int_to_vocab_lookup text c i :
  int_to_vocab set_iter text !! i = Some c ↔ vocab set_iter text !! i = Some c.
Proof.
  unfold int_to_vocab. rewrite dict_lookup.
  - apply elem_of_enumerate.
  - rewrite fst_enumerate. apply NoDup_seq.
Qed.

Lemma length_vocab text :
  length (vocab set_iter text) = length (remove_dups (String.list_ascii_of_string text)).
Proof.
  apply Permutation_length, NoDup_Permutation.
  - apply (set_iter_NoDup _ Hset).
  - apply NoDup_remove_dups.
  - intros c. unfold vocab. by rewrite (set_iter_elem _ Hset), elem_of_remove_dups.
Qed.

End vocabulary_facts.

(** C9. Whatever order the set of characters is iterated in,
    [vocab_to_int] and [int_to_vocab] are inverse to each other, the
    characters that have a code are exactly the characters of the text, and
    the codes that have a character are exactly [0, V), where [V] is the
    number of distinct characters of the text. *)
Theorem vocab_bijection (set_iter : list ascii → list ascii) (text : string) :
  set_order set_iter →
  let V := length (remove_dups (String.list_ascii_of_string text)) in
  (∀ c i, vocab_to_int set_iter text !! c = Some i ↔
          int_to_vocab set_iter text !! i = Some c) ∧
  (∀ c, is_Some (vocab_to_int set_iter text !! c) ↔
        c ∈ String.list_ascii_of_string text) ∧
  (∀ i, is_Some (int_to_vocab set_iter text !! i) ↔ (i < V)%nat).
Proof.
  intros Hset V. split_and!.
  - intros c i. by rewrite vocab_to_int_lookup, int_to_vocab_lookup.
  - intros c. rewrite <- (set_iter_elem _ Hset). fold (vocab set_iter text).
    rewrite list_elem_of_lookup. unfold is_Some.
    by setoid_rewrite (vocab_to_int_lookup _ Hset).
  - intros i. unfold V. rewrite <- (length_vocab _ Hset).
    rewrite <- lookup_lt_is_Some. unfold is_Some.
    by setoid_rewrite (int_to_vocab_lookup set_iter).
Qed.

Lemma remove_dups_order : set_order remove_dups.
Proof.
  split.
  - intros t. apply NoDup_remove_dups.
  - intros t c. apply elem_of_remove_dups.
Qed.

Lemma vocab_bijection_witness :
  (∀ c i, vocab_to_int remove_dups "hello" !! c = Some i ↔
          int_to_vocab remove_dups "hello" !! i = Some c) ∧
  (∀ c, is_Some (vocab_to_int remove_dups "hello" !! c) ↔
        c ∈ String.list_ascii_of_string "hello") ∧
  (∀ i, is_Some (int_to_vocab remove_dups "hello" !! i) ↔
        (i < length (remove_dups (String.list_ascii_of_string "hello")))%nat).
Proof. apply (vocab_bijection remove_dups "hello"), remove_dups_order. Defined.

Example vocab_hello :
  vocab_to_int remove_dups "hello" !! "l"%char = Some 2%nat ∧
  int_to_vocab remove_dups "hello" !! 2%nat = Some "l"%char ∧
  chars remove_dups "hello" = Ok [0; 1; 2; 2; 3].
Proof. split_and!; vm_compute; reflexivity. Qed.

(** ** Sums, zeroing and the inverse distribution function *)

Section float_facts.
Import NpFloat.
Local Open Scope Qc_scope.
Implicit Types p : list Qc.

Lemma sum_cons x p : sum (x :: p) = x + sum p.
Proof. reflexivity. Qed.

Lemma sum_nonneg p : (∀ x, x ∈ p → 0 ≤ x) → 0 ≤ sum p.
Proof.
  induction p as [|x p IH]; intros Hp; simpl; [done|].
  apply Qcplus_nonneg_nonneg.
  - apply Hp. by left.
  - apply IH. intros y Hy. apply Hp. by right.
Qed.

Lemma elem_le_sum p x : (∀ y, y ∈ p → 0 ≤ y) → x ∈ p → x ≤ sum p.
Proof.
  induction p as [|y p IH]; intros Hp Hx; [by apply elem_of_nil in Hx|].
  assert (0 ≤ y) as Hy by (apply Hp; by left).
  assert (∀ z, z ∈ p → 0 ≤ z) as Hp' by (intros z Hz; apply Hp; by right).
  simpl. apply elem_of_cons in Hx as [->|Hx].
  - rewrite <- (Qcplus_0_r y) at 1. apply Qcplus_le_mono_l. by apply sum_nonneg.
  - rewrite <- (Qcplus_0_l x). apply Qcplus_le_compat; [done|]. by apply IH.
Qed.

Lemma sum_scale p (s : Qc) : sum ((λ x, x / s) <$> p) = sum p / s.
Proof.
  induction p as [|x p IH].
  - simpl. unfold Qcdiv. by rewrite Qcmult_0_l.
  - rewrite fmap_cons, !sum_cons, IH. unfold Qcdiv. by rewrite Qcmult_plus_distr_l.
Qed.

Lemma Qcdiv_self (s : Qc) : s ≠ 0 → s / s = 1.
Proof. intros Hs. unfold Qcdiv. by apply Qcmult_inv_r. Qed.

Lemma Qcdiv_pos_iff (x s : Qc) : 0 < s → 0 < x / s ↔ 0 < x.
Proof.
  intros Hs. unfold Qcdiv.
  rewrite (Qcmult_lt_mono_pos_r 0 x (/ s)) by by apply Qcinv_pos.
  by rewrite Qcmult_0_l.
Qed.

Lemma Qcdiv_nonneg (x s : Qc) : 0 < s → 0 ≤ x → 0 ≤ x / s.
Proof.
  intros Hs Hx. unfold Qcdiv. apply Qcmult_nonneg_nonneg; [done|].
  by apply Qclt_le_weak, Qcinv_pos.
Qed.

Lemma length_zero_at idx p : length (zero_at idx p) = length p.
Proof.
  unfold zero_at. revert p. induction idx as [|i idx IH]; intros p; simpl; [done|].
  by rewrite IH, length_insert.
Qed.

(** After [p[idx] = 0] the entries at [idx] are zero and the others are
    what they were. *)
Lemma lookup_total_zero_at idx p j :
  zero_at idx p !!! j = if decide (j ∈ idx) then 0 else p !!! j.
Proof.
  unfold zero_at. revert p. induction idx as [|i idx IH]; intros p.
  { destruct (decide (j ∈ [])) as [Hin|]; [by apply elem_of_nil in Hin | done]. }
  cbn [foldl]. rewrite IH.
  destruct (decide (j ∈ idx)) as [Hin|Hnin], (decide (j ∈ i :: idx)) as [Hin'|Hnin'];
    try done.
  - exfalso. apply Hnin'. by right.
  - apply elem_of_cons in Hin' as [->|?]; [|done].
    destruct (decide (i < length p)%nat).
    + by rewrite list_lookup_total_insert_eq.
    + rewrite list_insert_ge by lia.
      rewrite list_lookup_total_alt, lookup_ge_None_2 by lia. done.
  - rewrite list_lookup_total_insert_ne; [done|].
    intros ->. apply Hnin'. by left.
Qed.

Lemma zero_at_nonneg idx p :
  (∀ x, x ∈ p → 0 ≤ x) → ∀ x, x ∈ zero_at idx p → 0 ≤ x.
Proof.
  intros Hp x Hx. apply list_elem_of_lookup in Hx as [j Hj].
  apply lookup_lt_Some in Hj as Hlt. rewrite length_zero_at in Hlt.
  apply list_lookup_total_correct in Hj. rewrite lookup_total_zero_at in Hj.
  destruct (decide (j ∈ idx)); subst x; [done|].
  apply Hp, list_elem_of_lookup_total_2. done.
Qed.

(** Inverting the cumulative distribution at a draw [u] that lies under the
    total mass lands on an entry of positive mass. *)
Lemma searchsorted_cumsum p (acc u : Qc) :
  acc ≤ u → u < acc + sum p →
  (searchsorted_right (cumsum acc p) u < length p)%nat ∧
  0 < p !!! searchsorted_right (cumsum acc p) u.
Proof.
  revert acc. induction p as [|x p IH]; intros acc Hlo Hhi; simpl in *.
  { rewrite Qcplus_0_r in Hhi. by apply Qcle_not_lt in Hlo. }
  destruct (decide (acc + x ≤ u)) as [Hle|Hgt].
  - rewrite Qcplus_assoc in Hhi.
    destruct (IH (acc + x) Hle Hhi) as [Hlt Hpos]. split; [lia | done].
  - split; [lia|]. simpl. apply Qcnot_le_lt in Hgt.
    apply (Qcplus_lt_mono_l 0 x acc). rewrite Qcplus_0_r.
    by apply Qcle_lt_trans with u.
Qed.

(** [l[:-n]] drops the last [n] entries when [n] is positive. *)
Lemma slice_drop_last {A} (l : list A) (n : Z) :
  (1 ≤ n)%Z → Py.slice None (Some (- n)%Z) l = take (length l - Z.to_nat n) l.
Proof.
  intros Hn. unfold Py.slice, Py.slice_bounds, Py.clamp. simpl.
  destruct (Z.ltb_spec (- n) 0); [|lia].
  rewrite drop_0, Nat.sub_0_r. f_equal. lia.
Qed.

End float_facts.

(** ** The order [np.argsort] returns *)

Lemma fmap_lookup_total_seq (p : list Qc) :
  (λ i, p !!! i) <$> seq 0 (length p) = p.
Proof.
  apply list_eq. intros i. rewrite list_lookup_fmap.
  destruct (decide (i < length p)%nat) as [Hlt|Hge].
  - rewrite lookup_seq_lt by done. simpl.
    symmetry. by apply list_lookup_lookup_total_lt.
  - rewrite lookup_seq_ge by lia. simpl. symmetry. apply lookup_ge_None_2. lia.
Qed.

Lemma filter_none {A} (P : A → Prop) `{∀ x, Decision (P x)} (l : list A) :
  Forall (λ x, ¬ P x) l → filter P l = [].
Proof.
  induction 1 as [|x l Hx _ IH]; [done|].
  by rewrite filter_cons_False.
Qed.

Section argsort_facts.
Import NpFloat.
Variable argsort : list Qc → list nat.
Hypothesis Hsort : argsort_spec argsort.
Implicit Types p : list Qc.

Lemma length_argsort p : length (argsort p) = length p.
Proof. by rewrite (argsort_perm _ Hsort p), length_seq. Qed.

Lemma NoDup_argsort p : NoDup (argsort p).
Proof. rewrite (argsort_perm _ Hsort p). apply NoDup_seq. Qed.

Lemma elem_of_argsort p j : j ∈ argsort p ↔ (j < length p)%nat.
Proof. rewrite (argsort_perm _ Hsort p), elem_of_seq. lia. Qed.

Lemma argsort_in_range p n :
  forallb (λ i, Nat.ltb i (length p)) (take n (argsort p)) = true.
Proof.
  apply forallb_forall. intros i Hi. apply Nat.ltb_lt.
  apply list_elem_of_In, elem_of_take in Hi as (k & Hk & _).
  apply elem_of_argsort, list_elem_of_lookup. eauto.
Qed.

(** An index is outside the first [n] places of the order exactly when it
    sits at place [n] or later. *)
Lemma argsort_split p n j :
  (j < length p)%nat →
  j ∉ take n (argsort p) ↔ ∃ k, (n ≤ k)%nat ∧ argsort p !! k = Some j.
Proof.
  intros Hj. rewrite elem_of_take. split.
  - intros Hnot. apply elem_of_argsort, list_elem_of_lookup in Hj as [k Hk].
    exists k. split; [|done].
    destruct (decide (n ≤ k)%nat); [done|]. exfalso. apply Hnot. exists k. split; [done | lia].
  - intros (k & Hk & Hlook) (i & Hi & Hlt).
    pose proof (NoDup_lookup _ _ _ _ (NoDup_argsort p) Hlook Hi). lia.
Qed.

(** The values read in the order of [argsort] are a rearrangement of [p]. *)
Lemma sorted_values_perm p : (λ i, p !!! i) <$> argsort p ≡ₚ p.
Proof.
  rewrite (argsort_perm _ Hsort p). by rewrite fmap_lookup_total_seq.
Qed.

(** The entry at place [k] of the ascending order has at most
    [length p - k - 1] entries strictly above it. *)
Lemma count_greater_at p k c :
  argsort p !! k = Some c →
  (count_greater p (p !!! c) + k < length p)%nat.
Proof.
  intros Hk. unfold count_greater.
  set (sv := (λ i, p !!! i) <$> argsort p).
  assert (length (filter (λ y, (p !!! c < y)%Qc) p)
          = length (filter (λ y, (p !!! c < y)%Qc) sv)) as ->.
  { apply Permutation_length, filter_Permutation. symmetry. apply sorted_values_perm. }
  pose proof (lookup_lt_Some _ _ _ Hk) as Hlt. rewrite length_argsort in Hlt.
  rewrite <- (take_drop (S k) sv), filter_app, length_app.
  rewrite filter_none.
  - simpl. pose proof (length_filter (λ y, (p !!! c < y)%Qc) (drop (S k) sv)) as Hle.
    rewrite length_drop in Hle. unfold sv in Hle |- *.
    rewrite length_fmap, length_argsort in Hle. lia.
  - apply Forall_forall. intros y Hy.
    apply elem_of_take in Hy as (i & Hi & Hik). unfold sv in Hi.
    rewrite list_lookup_fmap in Hi.
    destruct (argsort p !! i) as [a|] eqn:Ha; [|done]. injection Hi as <-.
    apply Qcle_not_lt. apply (argsort_ascending _ Hsort p i k a c); [lia | done | done].
Qed.

End argsort_facts.

Lemma argsort_stable_spec : NpFloat.argsort_spec argsort_stable.
Proof.
  split.
  - intros p. apply merge_sort_Permutation.
  - intros p i j a b Hij Ha Hb. unfold argsort_stable in Ha, Hb.
    assert (Transitive (le_at p)) as Htrans.
    { intros x y z. unfold le_at. apply Qcle_trans. }
    assert (Total (le_at p)) as Htotal.
    { intros x y. unfold le_at. destruct (Qclt_le_dec (p !!! x) (p !!! y)); auto using Qclt_le_weak. }
    pose proof (StronglySorted_merge_sort (le_at p) (seq 0 (length p))) as Hss.
    destruct (decide (i = j)) as [->|Hne].
    + rewrite Ha in Hb. injection Hb as ->. apply Qcle_refl.
    + revert i j a b Hij Hne Ha Hb. induction Hss as [|x l Hss IH Hall]; intros i j a b Hij Hne Ha Hb.
      { by rewrite lookup_nil in Ha. }
      destruct i as [|i], j as [|j]; simpl in *; try lia.
      * injection Ha as ->. apply (proj1 (Forall_forall _ _) Hall).
        by apply list_elem_of_lookup_2 in Hb.
      * apply (IH i j); [lia | lia | done | done].
Qed.

(** ** Running [pick_top_n] *)

Lemma slice_until {A} (l : list A) (k : Z) :
  Py.slice None (Some k) l = take (Py.clamp (length l) k) l.
Proof.
  unfold Py.slice, Py.slice_bounds. simpl. by rewrite drop_0, Nat.sub_0_r.
Qed.

Lemma run_eta {A} (x : world * result A) :
  (let (w', r) := x in
   match r with
   | Ok a => (w', Ok a)
   | Raise e => (w', Raise e)
   end) = x.
Proof. by destruct x as [w' [a|e]]. Qed.

Section pick_top_n_facts.
Import NpFloat.
Variable argsort : list Qc → list nat.
Hypothesis Hsort : argsort_spec argsort.

(** A one-class prediction squeezes to a zero-dimensional array, which
    takes no index: the call raises before it writes. *)
Lemma pick_top_n_singleton preds vocab_size top_n w :
  length (heap w !!! base preds) = 1%nat →
  pick_top_n argsort preds vocab_size top_n w = (w, Raise IndexError).
Proof.
  intros HV. unfold pick_top_n, squeeze, read, mbind, M_bind, mret, M_ret. simpl.
  by rewrite decide_True.
Qed.

(** [np.random.choice] on a one-dimensional array stored at [b]. *)
Lemma random_choice_run (a : Z) b w :
  let q := heap w !!! b in
  random_choice a (Vector b) w =
  if decide (a ≤ 0) then (w, Raise ValueError)
  else if decide (Py.len q ≠ a) then (w, Raise ValueError)
  else if existsb (λ x, bool_decide (x < 0)%Qc) q then (w, Raise ValueError)
  else if decide (sum q ≠ 1%Qc) then (w, Raise ValueError)
  else (World (heap w) (λ n, entropy w (S n)),
        Ok (searchsorted_right (cumsum 0 q) (entropy w 0%nat))).
Proof.
  intros q. unfold random_choice, read, mbind, M_bind. simpl. fold q.
  destruct (decide (a ≤ 0)); [done|].
  destruct (decide (Py.len q ≠ a)); [done|].
  destruct (existsb _ q); [done|].
  by destruct (decide (sum q ≠ 1%Qc)).
Qed.

(** The whole call on any other prediction array: the truncation is written
    to the caller's buffer, the renormalised copy goes to a fresh one, and
    the index is drawn from the copy. *)
Lemma pick_top_n_run preds vocab_size top_n w :
  let p := heap w !!! base preds in
  let p' := truncated argsort top_n p in
  let h1 := <[base preds := p']> (heap w) in
  let b' := fresh (dom h1) in
  length p ≠ 1%nat →
  pick_top_n argsort preds vocab_size top_n w =
  if decide (sum p' = 0%Qc) then (World h1 (entropy w), Raise ValueError)
  else random_choice vocab_size (Vector b')
         (World (<[b' := renormalized p']> h1) (entropy w)).
Proof.
  intros p p' h1 b' HV.
  assert (forallb (λ i, Nat.ltb i (length p))
            (Py.slice None (Some (- top_n)) (argsort p)) = true) as Hrange.
  { rewrite slice_until. by apply argsort_in_range. }
  remember (random_choice vocab_size) as choice eqn:Hchoice.
  unfold pick_top_n, squeeze, setitem_zero, normalized, read, write, alloc,
    mbind, M_bind, mret, M_ret. simpl. fold p.
  rewrite decide_False by done. simpl. fold p.
  rewrite Hrange. simpl.
  change (zero_at (Py.slice None (Some (- top_n)) (argsort p)) p) with p'.
  fold h1.
  assert (h1 !!! base preds = p') as Hh1 by apply lookup_total_insert_eq.
  rewrite Hh1.
  destruct (decide (sum p' = 0%Qc)); [done|]. simpl. fold b'.
  subst choice. unfold renormalized.
  exact (run_eta (random_choice vocab_size (Vector b') _)).
Qed.

End pick_top_n_facts.

(** ** The truncated distribution *)

Section top_n_facts.
Import NpFloat.
Local Open Scope Qc_scope.
Variable argsort : list Qc → list nat.
Hypothesis Hsort : argsort_spec argsort.
Implicit Types p : list Qc.

Lemma length_truncated top_n p : length (truncated argsort top_n p) = length p.
Proof. apply length_zero_at. Qed.

(** The entry whose index sits at place [k] of the ascending order is zeroed
    when [k] is before the last [top_n] places, and kept as it is
    otherwise. *)
Lemma truncated_lookup p (top_n : Z) k j :
  (1 ≤ top_n)%Z → argsort p !! k = Some j →
  truncated argsort top_n p !!! j =
  if decide (k < length p - Z.to_nat top_n)%nat then 0 else p !!! j.
Proof.
  intros HN Hk. unfold truncated.
  rewrite slice_drop_last, length_argsort, lookup_total_zero_at by done.
  set (n := (length p - Z.to_nat top_n)%nat).
  destruct (decide (j ∈ take n (argsort p))) as [Hin|Hnin], (decide (k < n)%nat) as [Hlt|Hge];
    try done.
  - apply elem_of_take in Hin as (i & Hi & Hlt).
    pose proof (NoDup_lookup _ _ _ _ (NoDup_argsort _ Hsort p) Hk Hi). lia.
  - exfalso. apply Hnin, elem_of_take. eauto.
Qed.

Lemma truncated_all p (top_n : Z) :
  (1 ≤ top_n)%Z → (length p ≤ Z.to_nat top_n)%nat → truncated argsort top_n p = p.
Proof.
  intros HN HV. unfold truncated.
  rewrite slice_drop_last, length_argsort by done.
  replace (length p - Z.to_nat top_n)%nat with 0%nat by lia. done.
Qed.

Lemma truncated_nonneg top_n p :
  (∀ x, x ∈ p → 0 ≤ x) → ∀ x, x ∈ truncated argsort top_n p → 0 ≤ x.
Proof. apply zero_at_nonneg. Qed.

Lemma sum_nonpos p : (∀ x, x ∈ p → x ≤ 0) → sum p ≤ 0.
Proof.
  induction p as [|x p IH]; intros Hp; [done|]. rewrite sum_cons.
  apply Qcplus_nonpos_nonpos.
  - apply Hp. by left.
  - apply IH. intros y Hy. apply Hp. by right.
Qed.

(** The top entry of a distribution survives the truncation, so the
    remainder has positive mass. *)
Lemma truncated_sum_pos p (top_n : Z) :
  (1 ≤ top_n)%Z → (∀ x, x ∈ p → 0 ≤ x) → sum p = 1 →
  0 < sum (truncated argsort top_n p).
Proof.
  intros HN Hnonneg Hsum.
  assert (0 < length p)%nat as HV.
  { destruct p; [|simpl; lia]. simpl in Hsum. symmetry in Hsum. by apply Q_apart_0_1 in Hsum. }
  destruct (lookup_lt_is_Some_2 (argsort p) (length p - 1)) as [c Hc].
  { rewrite length_argsort by done. lia. }
  assert (c < length p)%nat as Hclt.
  { apply (elem_of_argsort _ Hsort), list_elem_of_lookup. eauto. }
  assert (0 < p !!! c) as Hpos.
  { apply Qcnot_le_lt. intros Hle.
    assert (sum p ≤ 0) as Hs.
    { apply sum_nonpos. intros x Hx.
      apply list_elem_of_lookup in Hx as [j Hj].
      pose proof (lookup_lt_Some _ _ _ Hj) as Hjlt.
      apply list_lookup_total_correct in Hj. subst x.
      apply (elem_of_argsort _ Hsort), list_elem_of_lookup in Hjlt as [k Hk].
      pose proof (lookup_lt_Some _ _ _ Hk) as Hklt. rewrite length_argsort in Hklt by done.
      apply Qcle_trans with (p !!! c); [|done].
      apply (argsort_ascending _ Hsort p k (length p - 1) j c); [lia | done | done]. }
    rewrite Hsum in Hs. by apply Qcle_not_lt in Hs. }
  apply Qclt_le_trans with (truncated argsort top_n p !!! c).
  - rewrite (truncated_lookup p top_n (length p - 1) c) by done.
    rewrite decide_False by lia. done.
  - apply elem_le_sum; [by apply truncated_nonneg|].
    apply (list_elem_of_lookup_total_2 (truncated argsort top_n p) c).
    by rewrite length_truncated.
Qed.

Lemma sum_renormalized p : sum p ≠ 0 → sum (renormalized p) = 1.
Proof. intros Hs. unfold renormalized. by rewrite sum_scale, Qcdiv_self. Qed.

Lemma renormalized_lookup p j :
  (j < length p)%nat → renormalized p !!! j = p !!! j / sum p.
Proof.
  intros Hj. unfold renormalized.
  rewrite !list_lookup_total_alt, list_lookup_fmap.
  destruct (lookup_lt_is_Some_2 p j Hj) as [x ->]. done.
Qed.

Lemma renormalized_unit p : sum p = 1 → renormalized p = p.
Proof.
  intros Hs. unfold renormalized. rewrite Hs.
  rewrite <- (list_fmap_id p) at 2. apply list_fmap_ext. intros _ x _.
  simpl. apply Qcdiv_right_id.
Qed.

Lemma renormalized_nonneg p :
  0 < sum p → (∀ x, x ∈ p → 0 ≤ x) → ∀ x, x ∈ renormalized p → 0 ≤ x.
Proof.
  intros Hs Hp x Hx. unfold renormalized in Hx.
  apply list_elem_of_fmap in Hx as (y & -> & Hy).
  apply Qcdiv_nonneg; [done|]. by apply Hp.
Qed.

Lemma existsb_negative_false p :
  (∀ x, x ∈ p → 0 ≤ x) → existsb (λ x, bool_decide (x < 0)) p = false.
Proof.
  intros Hp. apply not_true_is_false. intros Hex.
  apply existsb_exists in Hex as (x & Hx & Hneg).
  apply bool_decide_eq_true in Hneg. apply list_elem_of_In, Hp in Hx.
  by apply Qcle_not_lt in Hx.
Qed.

End top_n_facts.

(** ** Claims about [pick_top_n] *)

Lemma random_choice_heap a v w : heap (NpFloat.random_choice a v w).1 = heap w.
Proof.
  destruct v as [b|b]; [|done]. rewrite random_choice_run.
  repeat (destruct (decide _); [done|]).
  destruct (existsb _ _); [done|]. by destruct (decide _).
Qed.

(** What a call leaves in the heap: the caller's buffer holds the truncated
    values, and no other buffer that existed before is touched. *)
Lemma pick_top_n_heap argsort preds vocab_size top_n w :
  NpFloat.argsort_spec argsort → 1 ≤ top_n →
  let w' := (pick_top_n argsort preds vocab_size top_n w).1 in
  heap w' !!! base preds = truncated argsort top_n (heap w !!! base preds) ∧
  ∀ b, b ≠ base preds → b ∈ dom (heap w) → heap w' !! b = heap w !! b.
Proof.
  intros Hsort HN. simpl.
  destruct (decide (length (heap w !!! base preds) = 1%nat)) as [HV|HV].
  { rewrite pick_top_n_singleton by done. simpl. split; [|done].
    symmetry. apply truncated_all; [done | done | lia]. }
  rewrite pick_top_n_run by done.
  set (p' := truncated argsort top_n (heap w !!! base preds)).
  set (h1 := <[base preds := p']> (heap w)).
  set (b' := fresh (dom h1)).
  assert (b' ∉ dom h1) as Hfresh by apply is_fresh.
  assert (b' ≠ base preds) as Hb'.
  { intros Heq. apply Hfresh. rewrite Heq. unfold h1. rewrite dom_insert. set_solver. }
  destruct (decide (NpFloat.sum p' = 0%Qc)).
  - simpl. split; [apply lookup_total_insert_eq|].
    intros b Hb _. by apply lookup_insert_ne.
  - pose proof (random_choice_heap vocab_size (Vector b')
                  (World (<[b' := renormalized p']> h1) (entropy w))) as Hh.
    destruct (NpFloat.random_choice _ _ _) as [w2 r]. simpl in Hh |- *.
    rewrite Hh. split.
    + rewrite lookup_total_insert_ne by done. apply lookup_total_insert_eq.
    + intros b Hb Hdom. rewrite lookup_insert_ne.
      * by apply lookup_insert_ne.
      * intros <-. apply Hfresh. unfold h1. rewrite dom_insert. set_solver.
Qed.

(** C10. [pick_top_n] writes through to its argument.  For [top_n >= 1],
    after any call the caller's prediction array has the value zero at
    every index the ascending order places before its last [top_n] places,
    and the original, un-normalised value everywhere else, so the division
    by the sum never reaches it; buffers other than the caller's are left
    alone; and there is a call that does change the caller's array. *)
Theorem pick_top_n_writes_through (argsort : list Qc → list nat) :
  NpFloat.argsort_spec argsort →
  (∀ preds vocab_size top_n w, 1 ≤ top_n →
     let p := heap w !!! base preds in
     let w' := (pick_top_n argsort preds vocab_size top_n w).1 in
     let p_after := heap w' !!! base preds in
     length p_after = length p ∧
     (∀ k j, argsort p !! k = Some j →
        p_after !!! j =
        if decide (k < length p - Z.to_nat top_n)%nat then 0%Qc else p !!! j) ∧
     (∀ b, b ≠ base preds → b ∈ dom (heap w) → heap w' !! b = heap w !! b)) ∧
  (∃ preds vocab_size top_n w,
     heap (pick_top_n argsort preds vocab_size top_n w).1 !!! base preds
     ≠ heap w !!! base preds).
Proof.
  intros Hsort.
  assert (∀ preds vocab_size top_n w, 1 ≤ top_n →
     let p := heap w !!! base preds in
     let w' := (pick_top_n argsort preds vocab_size top_n w).1 in
     let p_after := heap w' !!! base preds in
     length p_after = length p ∧
     (∀ k j, argsort p !! k = Some j →
        p_after !!! j =
        if decide (k < length p - Z.to_nat top_n)%nat then 0%Qc else p !!! j) ∧
     (∀ b, b ≠ base preds → b ∈ dom (heap w) → heap w' !! b = heap w !! b)) as Hall.
  { intros preds vocab_size top_n w HN. simpl.
    destruct (pick_top_n_heap argsort preds vocab_size top_n w Hsort HN) as [Hp Hother].
    simpl in Hp, Hother. rewrite Hp. split_and!.
    - apply length_truncated.
    - intros k j Hk. by apply truncated_lookup.
    - done. }
  split; [done|].
  set (half := Q2Qc (1 # 2)).
  set (w := World {[ 0%nat := [half; half] ]} (λ _, 0%Qc)).
  exists (NdArray 0%nat), 2, 1, w.
  destruct (Hall (NdArray 0%nat) 2 1 w) as (_ & Hzero & _); [lia|].
  cbv zeta in Hzero. intros Heq. rewrite Heq in Hzero.
  change (heap w !!! base (NdArray 0%nat)) with [half; half] in Hzero.
  destruct (lookup_lt_is_Some_2 (argsort [half; half]) 0) as [j Hj].
  { rewrite length_argsort by done. simpl. lia. }
  specialize (Hzero 0%nat j Hj).
  assert (j < 2)%nat as Hlt.
  { apply (elem_of_argsort _ Hsort [half; half]), list_elem_of_lookup. eauto. }
  destruct j as [|[|j]]; [| |lia]; vm_compute in Hzero; discriminate Hzero.
Qed.

(** Equalities between concrete rationals: decided by evaluation. *)
Ltac decide_by_compute :=
  match goal with
  | |- ?P => apply (bool_decide_unpack P); vm_compute; exact I
  end.

(** With [top_n = 2] on a four-class prediction the call zeroes the two
    smallest entries of the caller's array and samples from a renormalised
    copy in a new buffer. *)
Example pick_top_n_ex :
  let w' := (pick_top_n argsort_stable (NdArray 0%nat) 4 2 ex_world).1 in
  (pick_top_n argsort_stable (NdArray 0%nat) 4 2 ex_world).2 = Ok 1%nat ∧
  heap w' !!! 0%nat = Q2Qc <$> [0; 1 # 2; 0; 1 # 5]%Q ∧
  heap w' !!! 1%nat = Q2Qc <$> [0; 5 # 7; 0; 2 # 7]%Q.
Proof.
  split_and!; [vm_compute; reflexivity | |]; decide_by_compute.
Qed.

Lemma pick_top_n_writes_through_witness :
  (∀ preds vocab_size top_n w, 1 ≤ top_n →
     let p := heap w !!! base preds in
     let w' := (pick_top_n argsort_stable preds vocab_size top_n w).1 in
     let p_after := heap w' !!! base preds in
     length p_after = length p ∧
     (∀ k j, argsort_stable p !! k = Some j →
        p_after !!! j =
        if decide (k < length p - Z.to_nat top_n)%nat then 0%Qc else p !!! j) ∧
     (∀ b, b ≠ base preds → b ∈ dom (heap w) → heap w' !! b = heap w !! b)) ∧
  (∃ preds vocab_size top_n w,
     heap (pick_top_n argsort_stable preds vocab_size top_n w).1 !!! base preds
     ≠ heap w !!! base preds).
Proof. apply (pick_top_n_writes_through argsort_stable), argsort_stable_spec. Defined.

(** C7. For a probability distribution [p] stored in the prediction array
    and [top_n >= 1]: the distribution [q] that [pick_top_n] samples from is
    zero at every index outside the last [top_n] places of the ascending
    order and [p] divided by the kept mass on the others; the kept mass is
    positive and [q] sums to one; with [top_n] at least the number of
    classes, [q] is [p] itself.  For a uniform draw in [0, 1) the call
    returns an index (given more than one class and [vocab_size] equal to
    the number of classes), and any index it returns is the inverse of the
    cumulative distribution of [q] at the draw, has positive probability in
    [p], and has fewer than [top_n] entries of [p] strictly above it. *)
Theorem pick_top_n_samples_top_n
    (argsort : list Qc → list nat) preds vocab_size top_n w :
  NpFloat.argsort_spec argsort →
  let p := heap w !!! base preds in
  let V := length p in
  let kept := truncated argsort top_n p in
  let q := renormalized kept in
  1 ≤ top_n →
  (∀ x, x ∈ p → 0 ≤ x)%Qc → NpFloat.sum p = 1%Qc →
  (0 ≤ entropy w 0%nat < 1)%Qc →
  (∀ k j, argsort p !! k = Some j →
     q !!! j = if decide (k < V - Z.to_nat top_n)%nat then 0%Qc
               else (p !!! j / NpFloat.sum kept)%Qc) ∧
  (0 < NpFloat.sum kept)%Qc ∧ NpFloat.sum q = 1%Qc ∧
  ((V ≤ Z.to_nat top_n)%nat → q = p) ∧
  (V ≠ 1%nat → vocab_size = Z.of_nat V →
     ∃ w' c, pick_top_n argsort preds vocab_size top_n w = (w', Ok c)) ∧
  (∀ w' c, pick_top_n argsort preds vocab_size top_n w = (w', Ok c) →
     c = NpFloat.searchsorted_right (NpFloat.cumsum 0%Qc q) (entropy w 0%nat) ∧
     (c < V)%nat ∧ (0 < p !!! c)%Qc ∧ (0 < q !!! c)%Qc ∧
     (count_greater p (p !!! c) < Z.to_nat top_n)%nat).
Proof.
  intros Hsort p V kept q HN Hnonneg Hsum [Hu0 Hu1].
  assert (0 < NpFloat.sum kept)%Qc as Hkept by by apply truncated_sum_pos.
  assert (NpFloat.sum kept ≠ 0%Qc) as Hkept0.
  { intros Heq. rewrite Heq in Hkept. by apply Qclt_not_eq in Hkept. }
  assert (NpFloat.sum q = 1%Qc) as Hq1 by by apply sum_renormalized.
  assert (length kept = V) as Hlen by apply length_truncated.
  assert (length q = V) as Hlenq by (unfold q, renormalized; by rewrite length_fmap).
  assert (∀ k j, argsort p !! k = Some j →
     q !!! j = if decide (k < V - Z.to_nat top_n)%nat then 0%Qc
               else (p !!! j / NpFloat.sum kept)%Qc) as Hlookup.
  { intros k j Hk.
    assert (j < V)%nat as Hj.
    { apply (elem_of_argsort _ Hsort p), list_elem_of_lookup. eauto. }
    unfold q. rewrite renormalized_lookup by (rewrite Hlen; done).
    fold kept. unfold kept at 1. rewrite (truncated_lookup _ Hsort p top_n k j) by done.
    fold V. destruct (decide _); [|done].
    unfold Qcdiv. apply Qcmult_0_l. }
  assert (∀ c, (c < V)%nat → (0 < q !!! c)%Qc →
     (0 < p !!! c)%Qc ∧ (count_greater p (p !!! c) < Z.to_nat top_n)%nat) as Hdrawn.
  { intros c Hc Hpos.
    apply (elem_of_argsort _ Hsort p), list_elem_of_lookup in Hc as [k Hk].
    rewrite (Hlookup k c Hk) in Hpos.
    destruct (decide (k < V - Z.to_nat top_n)%nat) as [|Hge].
    { by apply Qclt_not_eq in Hpos. }
    split; [by apply (Qcdiv_pos_iff _ (NpFloat.sum kept))|].
    pose proof (count_greater_at _ Hsort p k c Hk). fold V in H. lia. }
  assert (pick_top_n argsort preds vocab_size top_n w =
          if decide (V = 1%nat) then (w, Raise IndexError)
          else NpFloat.random_choice vocab_size
                 (Vector (fresh (dom (<[base preds := kept]> (heap w)))))
                 (World (<[fresh (dom (<[base preds := kept]> (heap w))) := q]>
                           (<[base preds := kept]> (heap w))) (entropy w))) as Hrun.
  { destruct (decide (V = 1%nat)) as [HV|HV].
    - by apply pick_top_n_singleton.
    - rewrite pick_top_n_run by done. fold p. fold kept.
      by rewrite decide_False by done. }
  rewrite random_choice_run in Hrun. cbn [heap entropy] in Hrun.
  rewrite lookup_total_insert_eq in Hrun.
  rewrite (existsb_negative_false q) in Hrun
    by (apply renormalized_nonneg; [done | by apply truncated_nonneg]).
  rewrite (decide_False (P := NpFloat.sum q ≠ 1%Qc)) in Hrun by (intros Hne; by apply Hne).
  destruct (searchsorted_cumsum q 0%Qc (entropy w 0%nat)) as [Hc Hqc];
    [done | by rewrite Qcplus_0_l, Hq1 |].
  rewrite Hlenq in Hc.
  split_and!; try done.
  - intros HVN. unfold q, kept. rewrite truncated_all by (done || lia).
    by apply renormalized_unit.
  - intros HV Hvs. rewrite Hrun. rewrite decide_False by done.
    rewrite decide_False by lia.
    rewrite decide_False by (unfold Py.len; rewrite Hlenq; intros Hne; by apply Hne).
    eauto.
  - intros w' c Hpick. rewrite Hrun in Hpick.
    destruct (decide (V = 1%nat)); [done|].
    destruct (decide (vocab_size ≤ 0)); [done|].
    destruct (decide (Py.len q ≠ vocab_size)); [done|].
    injection Hpick as _ <-.
    destruct (Hdrawn _ Hc Hqc) as [Hp Hrank]. done.
Qed.

Lemma ex_preds_distribution :
  (∀ x, x ∈ ex_preds → 0 ≤ x)%Qc ∧ NpFloat.sum ex_preds = 1%Qc.
Proof.
  split; [|decide_by_compute].
  intros x Hx. unfold ex_preds in Hx. rewrite !fmap_cons, fmap_nil in Hx.
  repeat (apply elem_of_cons in Hx as [->|Hx]; [by vm_compute|]).
  by apply elem_of_nil in Hx.
Qed.

Lemma pick_top_n_samples_top_n_witness :
  let p := ex_preds in
  let kept := truncated argsort_stable 2 p in
  let q := renormalized kept in
  (∀ k j, argsort_stable p !! k = Some j →
     q !!! j = if decide (k < 4 - Z.to_nat 2)%nat then 0%Qc
               else (p !!! j / NpFloat.sum kept)%Qc) ∧
  (0 < NpFloat.sum kept)%Qc ∧ NpFloat.sum q = 1%Qc ∧
  ((4 ≤ Z.to_nat 2)%nat → q = p) ∧
  (4%nat ≠ 1%nat → 4 = Z.of_nat 4 →
     ∃ w' c, pick_top_n argsort_stable (NdArray 0%nat) 4 2 ex_world = (w', Ok c)) ∧
  (∀ w' c, pick_top_n argsort_stable (NdArray 0%nat) 4 2 ex_world = (w', Ok c) →
     c = NpFloat.searchsorted_right (NpFloat.cumsum 0%Qc q) (Q2Qc (1 # 3)) ∧
     (c < 4)%nat ∧ (0 < p !!! c)%Qc ∧ (0 < q !!! c)%Qc ∧
     (count_greater p (p !!! c) < Z.to_nat 2)%nat).
Proof.
  apply (pick_top_n_samples_top_n argsort_stable (NdArray 0%nat) 4 2 ex_world).
  - apply argsort_stable_spec.
  - lia.
  - apply ex_preds_distribution.
  - apply ex_preds_distribution.
  - split; by vm_compute.
Defined.

(** ** Claims about the sampler *)

Lemma bind_Ok_inv {A B} (m : M A) (f : A → M B) w w' b :
  (m ≫= f) w = (w', Ok b) → ∃ w1 a, m w = (w1, Ok a) ∧ f a w1 = (w', Ok b).
Proof.
  unfold mbind, M_bind. destruct (m w) as [w1 [a|e]]; [eauto | done].
Qed.

Section sample_facts.
Context {S : Type}.
Variable argsort : list Qc → list nat.
Variable restore : string → Z → Z → result (rnn S).
Variable G : globals.

(** Every turn of the generation loop appends one character. *)
Lemma sample_loop_appends (model : rnn S) n c new_state samples w w' out :
  sample_loop argsort G model n c new_state samples w = (w', Ok out) →
  ∃ generated, out = samples ++ generated ∧ length generated = n.
Proof.
  revert c new_state samples w. induction n as [|n IH]; intros c new_state samples w Hrun.
  { injection Hrun as _ <-. exists []. by rewrite app_nil_r. }
  cbn [sample_loop] in Hrun.
  apply bind_Ok_inv in Hrun as (w1 & [preds st] & _ & Hrun).
  apply bind_Ok_inv in Hrun as (w2 & c' & _ & Hrun).
  apply bind_Ok_inv in Hrun as (w3 & ch & _ & Hrun).
  apply IH in Hrun as (generated & -> & Hlen).
  exists (ch :: generated). split; [by rewrite <- app_assoc | simpl; lia].
Qed.

(** Whatever [prime] is passed, a sample that comes back starts with "Far"
    and carries [n_samples + 1] generated characters after it. *)
Lemma sample_shape checkpoint n_samples lstm_size vocab_size prime w w' out :
  sample argsort restore G checkpoint n_samples lstm_size vocab_size prime w = (w', Ok out) →
  ∃ generated,
    String.list_ascii_of_string out = String.list_ascii_of_string "Far" ++ generated ∧
    length generated = Datatypes.S (Z.to_nat n_samples).
Proof.
  unfold sample. intros Hrun.
  apply bind_Ok_inv in Hrun as (w1 & model & _ & Hrun).
  apply bind_Ok_inv in Hrun as (w2 & [[preds|] st] & _ & Hrun); [|done].
  apply bind_Ok_inv in Hrun as (w3 & c & _ & Hrun).
  apply bind_Ok_inv in Hrun as (w4 & ch & _ & Hrun).
  apply bind_Ok_inv in Hrun as (w5 & samples & Hloop & Hret).
  injection Hret as _ <-.
  apply sample_loop_appends in Hloop as (generated & -> & Hlen).
  rewrite String.list_ascii_of_string_of_list_ascii.
  exists (ch :: generated). split; [by rewrite <- app_assoc | simpl; lia].
Qed.

End sample_facts.

(** C1 on the code: with [n_samples = 0] the sampler does not return the
    priming string.  Asked to prime with "The " it returns "Far" and one
    generated character; asked to prime with "Far" it returns those same
    four characters, one more than the priming string. *)
Theorem sample_zero_not_prime :
  ex_sample 0 "The " = Ok "FarF"%string ∧
  ex_sample 0 "Far" = Ok "FarF"%string ∧
  ex_sample 2 "Far" = Ok "FarFFF"%string.
Proof. split_and!; vm_compute; reflexivity. Qed.

(** * Further properties of the notebook's code *)

(** ** Encoding the text *)

Lemma mapM_result_cons {A B} (f : A → result B) x l :
  mapM f (x :: l) = y ← f x; k ← mapM f l; mret (y :: k).
Proof. reflexivity. Qed.

Lemma mapM_getitem (d : gmap ascii nat) (l : list ascii) :
  (∀ c, c ∈ l → is_Some (d !! c)) →
  ∃ ns, mapM (λ c, Z.of_nat <$> getitem d c) l = Ok (Z.of_nat <$> ns) ∧
        Forall2 (λ c n, d !! c = Some n) l ns.
Proof.
  induction l as [|c l IH]; intros Hl.
  { exists []. split; [done | constructor]. }
  destruct (Hl c) as [n Hn]; [by left|].
  destruct IH as (ns & Hns & Hall); [intros c' Hc'; apply Hl; by right|].
  exists (n :: ns). split; [|by constructor].
  rewrite mapM_result_cons, Hns. unfold getitem. by rewrite Hn.
Qed.

Lemma mapM_decode (d : gmap nat ascii) (l : list ascii) ns :
  Forall2 (λ c n, d !! n = Some c) l ns → mapM (getitem d) ns = Ok l.
Proof.
  induction 1 as [|c n l ns Hn _ IH]; [done|].
  rewrite mapM_result_cons, IH. unfold getitem. by rewrite Hn.
Qed.

(** X1. Encoding never raises [KeyError]: [chars] holds one code per
    character of the text, every code is below the vocabulary size, and
    looking the codes up in [int_to_vocab] gives the text back. *)
Theorem chars_roundtrip (set_iter : list ascii → list ascii) (text : string) :
  set_order set_iter →
  ∃ codes : list nat,
    chars set_iter text = Ok (Z.of_nat <$> codes) ∧
    length codes = String.length text ∧
    Forall (λ n, n < length (vocab set_iter text))%nat codes ∧
    mapM (getitem (int_to_vocab set_iter text)) codes
      = Ok (String.list_ascii_of_string text).
Proof.
  intros Hset. unfold chars.
  destruct (mapM_getitem (vocab_to_int set_iter text) (String.list_ascii_of_string text))
    as (ns & Hns & Hall).
  { intros c Hc. apply (set_iter_elem _ Hset) in Hc. fold (vocab set_iter text) in Hc.
    apply list_elem_of_lookup in Hc as [i Hi].
    exists i. by apply vocab_to_int_lookup. }
  exists ns. split; [done|]. split_and!.
  - rewrite <- (Forall2_length _ _ _ Hall). clear.
    induction text as [|a text IH]; simpl; [done | by rewrite IH].
  - clear Hns. induction Hall as [|c n l ns Hn _ IH]; constructor; [|done].
    apply vocab_to_int_lookup in Hn; [|done]. by apply lookup_lt_Some in Hn.
  - apply mapM_decode. eapply Forall2_impl; [exact Hall|].
    intros c n Hn. simpl in Hn.
    apply int_to_vocab_lookup. by apply vocab_to_int_lookup in Hn.
Qed.

Lemma chars_roundtrip_witness :
  ∃ codes : list nat,
    chars remove_dups "hello" = Ok (Z.of_nat <$> codes) ∧
    length codes = String.length "hello" ∧
    Forall (λ n, n < length (vocab remove_dups "hello"))%nat codes ∧
    mapM (getitem (int_to_vocab remove_dups "hello")) codes
      = Ok (String.list_ascii_of_string "hello").
Proof. apply (chars_roundtrip remove_dups "hello"), remove_dups_order. Defined.

(** ** When the batch splitter returns *)

Lemma quot_mul_exact (L s : Z) :
  0 ≤ L → s ≠ 0 → Z.quot L s * s = L ↔ L mod s = 0.
Proof.
  intros HL Hs. rewrite Z.mod_divide by done. rewrite <- Z.rem_divide by done.
  pose proof (Z.quot_rem' L s). lia.
Qed.





(** ** The shapes of the four matrices *)

Lemma cols_prefix (a : ndarray2) (c : Z) :
  wf a → 0 ≤ c ≤ Z.of_nat (ncols a) →
  cols None (Some c) a = Array2 (Z.to_nat c) (take (Z.to_nat c) <$> rows a) ∧
  wf (cols None (Some c) a).
Proof.
  intros Hwf Hc. unfold cols, Py.slice_bounds, Py.clamp. cbn [from_option].
  destruct (Z.ltb_spec c 0); [lia|]. rewrite Z.min_l by lia.
  rewrite Nat.sub_0_r.
  assert (map (Py.slice None (Some c)) (rows a) = take (Z.to_nat c) <$> rows a) as ->.
  { apply map_ext. intros r. by apply slice_prefix. }
  split; [done|]. unfold wf. simpl.
  apply Forall_fmap. eapply Forall_impl; [exact Hwf|].
  intros r Hr. simpl in Hr |- *. rewrite length_take. lia.
Qed.

Lemma cols_suffix (a : ndarray2) (c : Z) :
  wf a → 0 ≤ c ≤ Z.of_nat (ncols a) →
  cols (Some c) None a = Array2 (ncols a - Z.to_nat c) (drop (Z.to_nat c) <$> rows a) ∧
  wf (cols (Some c) None a).
Proof.
  intros Hwf Hc. unfold cols, Py.slice_bounds, Py.clamp. cbn [from_option].
  destruct (Z.ltb_spec c 0); [lia|]. rewrite Z.min_l by lia.
  assert (map (Py.slice (Some c) None) (rows a) = drop (Z.to_nat c) <$> rows a) as ->.
  { apply map_ext_in. intros r Hr.
    apply (proj1 (List.Forall_forall _ _) Hwf) in Hr.
    unfold Py.slice, Py.slice_bounds, Py.clamp. cbn [from_option].
    destruct (Z.ltb_spec c 0); [lia|]. rewrite Z.min_l by lia.
    apply take_ge. rewrite length_drop. lia. }
  split; [done|]. unfold wf. simpl.
  apply Forall_fmap. eapply Forall_impl; [exact Hwf|].
  intros r Hr. simpl in Hr |- *. rewrite length_drop. lia.
Qed.

Lemma wf_chunks k n (l : list Z) :
  (n * k ≤ length l)%nat → wf (Array2 k (chunks k n l)).
Proof. intros Hl. unfold wf. simpl. by apply Forall_length_chunks. Qed.

(** The four matrices are the columns of [x] and [y] before and after
    [split_idx * num_steps], with [split_idx] the truncated float product. *)
Lemma split_data_parts chars batch_size num_steps split_frac train_x train_y val_x val_y :
  split_data chars batch_size num_steps split_frac = Ok (train_x, train_y, val_x, val_y) →
  let n_batches := Z.quot (Py.len chars) (batch_size * num_steps) in
  ∃ x y split_idx,
    split_data_xy chars batch_size num_steps = Ok (x, y) ∧
    Py.int_mul n_batches split_frac = Ok split_idx ∧
    train_x = cols None (Some (split_idx * num_steps)) x ∧
    train_y = cols None (Some (split_idx * num_steps)) y ∧
    val_x = cols (Some (split_idx * num_steps)) None x ∧
    val_y = cols (Some (split_idx * num_steps)) None y.
Proof.
  intros Hsd. rewrite split_data_factor in Hsd. unfold Py.int_div in Hsd.
  destruct (Z.eqb_spec (batch_size * num_steps) 0); [done|].
  cbn [mbind result_bind] in Hsd.
  destruct (split_data_xy chars batch_size num_steps) as [[x y]|]; [|done].
  cbn [mbind result_bind] in Hsd.
  destruct (Py.int_mul _ split_frac) as [split_idx|] eqn:Hsi; [|done].
  cbn [mbind result_bind] in Hsd. injection Hsd as <- <- <- <-.
  by exists x, y, split_idx.
Qed.

(** X3. For a positive [num_steps], a split fraction between 0 and 1 and a
    corpus of fewer than [2 ^ 53] characters, whenever [split_data] returns,
    the split index [int(n_batches*split_frac)] lies between 0 and
    [n_batches], the training inputs have [batch_size] full rows of
    [split_idx * num_steps] columns and the validation inputs the remaining
    [(n_batches - split_idx) * num_steps] columns; unless the corpus length
    is an exact multiple of the slice size, the target matrices have the
    shapes of their input matrices. *)
Theorem split_data_shapes
    chars batch_size num_steps split_frac train_x train_y val_x val_y :
  split_data chars batch_size num_steps split_frac = Ok (train_x, train_y, val_x, val_y) →
  0 < num_steps → (0 ≤ split_frac)%Qc → (split_frac ≤ 1)%Qc →
  Py.len chars < 2 ^ 53 →
  let n_batches := Z.quot (Py.len chars) (batch_size * num_steps) in
  ∃ split_idx,
    Py.int_mul n_batches split_frac = Ok split_idx ∧
    0 ≤ split_idx ≤ n_batches ∧
    wf train_x ∧ wf val_x ∧
    shape train_x = (Z.to_nat batch_size, Z.to_nat (split_idx * num_steps)) ∧
    shape val_x = (Z.to_nat batch_size, Z.to_nat ((n_batches - split_idx) * num_steps)) ∧
    (Py.len chars mod (batch_size * num_steps) ≠ 0 →
       wf train_y ∧ wf val_y ∧ shape train_y = shape train_x ∧ shape val_y = shape val_x).
Proof.
  intros Hsd HT Hf0 Hf1 Hsize n_batches.
  destruct (split_data_parts _ _ _ _ _ _ _ _ Hsd)
    as (x & y & split_idx & Hxy & Hmul & -> & -> & -> & ->).
  fold n_batches in Hmul.
  destruct (split_data_xy_inv _ _ _ _ _ Hxy)
    as (HB & Hs & Hk0 & Hm & Hlen & -> & k' & -> & Hlen' & Hk').
  fold n_batches in Hk0, Hm, Hlen, Hlen', Hk' |- *.
  set (k := Z.to_nat (n_batches * num_steps)) in *.
  set (m := Z.to_nat (n_batches * (batch_size * num_steps))) in *.
  set (B := Z.to_nat batch_size) in *.
  assert (0 ≤ n_batches) as Hn by nia.
  assert (n_batches < 2 ^ 53) as Hn53.
  { assert (Z.of_nat m ≤ Py.len chars) by (unfold Py.len; lia).
    assert (n_batches ≤ Z.of_nat m); [unfold m; nia | lia]. }
  assert (0 ≤ split_idx ≤ n_batches) as Hsi.
  { destruct (int_mul_bounds n_batches split_frac) as (si & Hsi & Hb); [done..|].
    rewrite Hmul in Hsi. by injection Hsi as <-. }
  exists split_idx. split; [done|].
  assert (0 ≤ split_idx * num_steps ≤ Z.of_nat k) as Hc by (unfold k; nia).
  assert (wf (Array2 k (chunks k B (take m chars)))) as Hwfx.
  { apply wf_chunks. rewrite length_take. lia. }
  destruct (cols_prefix _ _ Hwfx Hc) as [-> Hwft].
  destruct (cols_suffix _ _ Hwfx Hc) as [-> Hwfv].
  split; [exact Hsi|]. split; [exact Hwft|]. split; [exact Hwfv|]. split_and!.
  - unfold shape. cbn [rows ncols]. by rewrite length_fmap, length_chunks.
  - unfold shape. cbn [rows ncols]. rewrite length_fmap, length_chunks. f_equal. unfold k. nia.
  - intros Hmod. assert (k' = k) as ->.
    { destruct Hk' as [->|[-> Hk']]; [done|]. exfalso. apply Hmod.
      apply quot_mul_exact; [unfold Py.len; lia | nia |]. fold n_batches.
      rewrite length_take, length_drop in Hlen'. unfold Py.len, m in *. lia. }
    assert (wf (Array2 k (chunks k B (take m (drop 1 chars))))) as Hwfy.
    { apply wf_chunks. lia. }
    destruct (cols_prefix _ _ Hwfy Hc) as [-> Hwfty].
    destruct (cols_suffix _ _ Hwfy Hc) as [-> Hwfvy].
    split_and!; try done; unfold shape; cbn [rows ncols];
      by rewrite !length_fmap, !length_chunks.
Qed.

Lemma split_data_shapes_witness :
  let n_batches := Z.quot (Py.len ex_fifty_chars) (1 * 2) in
  ∃ split_idx,
    Py.int_mul n_batches ex_frac = Ok split_idx ∧
    0 ≤ split_idx ≤ n_batches ∧
    wf ex_fifty_train_x ∧ wf ex_fifty_val_x ∧
    shape ex_fifty_train_x = (Z.to_nat 1, Z.to_nat (split_idx * 2)) ∧
    shape ex_fifty_val_x = (Z.to_nat 1, Z.to_nat ((n_batches - split_idx) * 2)) ∧
    (Py.len ex_fifty_chars mod (1 * 2) ≠ 0 →
       wf ex_fifty_train_y ∧ wf ex_fifty_val_y ∧
       shape ex_fifty_train_y = shape ex_fifty_train_x ∧
       shape ex_fifty_val_y = shape ex_fifty_val_x).
Proof.
  apply (split_data_shapes ex_fifty_chars 1 2 ex_frac
           ex_fifty_train_x ex_fifty_train_y ex_fifty_val_x ex_fifty_val_y).
  - vm_compute. reflexivity.
  - lia.
  - by vm_compute.
  - by vm_compute.
  - by vm_compute.
Defined.

(** ** Windows side by side *)

Lemma concat_chunks_prefix {A} k n (l : list A) :
  concat (chunks k n l) = take (n * k) l.
Proof.
  revert l. induction n as [|n IH]; intros l; simpl; [done|].
  by rewrite IH, take_take_drop.
Qed.

(** The list of windows, spelled out. *)
Lemma get_batch_run (a0 : ndarray2) (rest : list ndarray2) (num_steps : Z) :
  0 < num_steps →
  get_batch (a0 :: rest) num_steps =
  Ok ((λ b : nat,
         cols (Some (Z.of_nat b * num_steps)) (Some ((Z.of_nat b + 1) * num_steps))
           <$> a0 :: rest)
      <$> seq 0 (ncols a0 `div` Z.to_nat num_steps)).
Proof.
  intros HT. unfold get_batch, shape, Py.int_div.
  destruct (Z.eqb_spec num_steps 0); [lia|]. cbn [mbind result_bind]. f_equal.
  rewrite Z.quot_div_nonneg by lia. unfold Py.range, seqZ.
  rewrite <- list_fmap_compose.
  replace (Z.to_nat (Z.of_nat (ncols a0) `div` num_steps))
    with (ncols a0 `div` Z.to_nat num_steps)%nat.
  - apply list_fmap_ext. intros _ b _. simpl. by rewrite Z.add_0_r.
  - apply Nat2Z.inj. rewrite Nat2Z.inj_div.
    rewrite (Z2Nat.id num_steps) by lia.
    rewrite Z2Nat.id; [done|]. apply Z.div_pos; lia.
Qed.

(** X4. For a non-empty family of well-formed matrices of one shape
    [(R, C)] and [num_steps >= 1], the windows of [get_batch] tile each
    matrix without gap or overlap: for every matrix and every row, the
    row's pieces in the successive windows, put end to end, are the first
    [(C / num_steps) * num_steps] entries of that row. *)
Theorem get_batch_tiles (arrs : list ndarray2) (num_steps : Z) (R C : nat) :
  arrs ≠ [] →
  Forall (λ a, wf a ∧ shape a = (R, C)) arrs →
  0 < num_steps →
  let T := Z.to_nat num_steps in
  ∃ ws,
    get_batch arrs num_steps = Ok ws ∧
    ∀ k a i r, arrs !! k = Some a → rows a !! i = Some r →
      ∃ pieces,
        Forall2 (λ w piece, ∃ s, w !! k = Some s ∧ rows s !! i = Some piece) ws pieces ∧
        concat pieces = take (C `div` T * T) r.
Proof.
  intros Hne Hall HT T.
  destruct arrs as [|a0 rest]; [done|].
  pose proof (Forall_inv Hall) as [Hwf0 Hshape0].
  injection Hshape0 as _ HC0.
  rewrite get_batch_run by done. rewrite HC0. fold T.
  eexists. split; [done|].
  intros k a i r Hka Hir.
  pose proof (proj1 (Forall_lookup _ _) Hall k a Hka) as [Hwf Hshape].
  injection Hshape as _ HC.
  assert (length r = C) as Hr.
  { rewrite <- HC. apply (proj1 (Forall_lookup _ _) Hwf i r Hir). }
  assert (0 < T)%nat as HT' by (unfold T; lia).
  assert (C `div` T * T ≤ C)%nat as HnT.
  { rewrite Nat.mul_comm. apply Nat.Div0.mul_div_le. }
  exists (chunks T (C `div` T) r). split; [|apply concat_chunks_prefix].
  apply Forall2_same_length_lookup. split.
  { by rewrite length_fmap, length_seq, length_chunks. }
  intros b w piece Hw Hpiece.
  apply lookup_lt_Some in Hpiece as Hb. rewrite length_chunks in Hb.
  rewrite lookup_chunks in Hpiece by done. injection Hpiece as <-.
  rewrite list_lookup_fmap, lookup_seq_lt in Hw by done. injection Hw as <-.
  assert ((cols (Some (Z.of_nat b * num_steps)) (Some ((Z.of_nat b + 1) * num_steps))
             <$> a0 :: rest) !! k
          = Some (cols (Some (Z.of_nat b * num_steps))
                    (Some ((Z.of_nat b + 1) * num_steps)) a)) as Hwk.
  { by rewrite list_lookup_fmap, Hka. }
  eexists. split; [exact Hwk|].
  replace num_steps with (Z.of_nat T) by (unfold T; lia).
  rewrite cols_window by (rewrite ?HC; done || nia).
  cbn [rows]. by rewrite list_lookup_fmap, Hir.
Qed.

Lemma get_batch_tiles_witness :
  ∃ ws,
    get_batch [ex_wide; ex_wide] 2 = Ok ws ∧
    ∀ k a i r, [ex_wide; ex_wide] !! k = Some a → rows a !! i = Some r →
      ∃ pieces,
        Forall2 (λ w piece, ∃ s, w !! k = Some s ∧ rows s !! i = Some piece) ws pieces ∧
        concat pieces = take (5 `div` Z.to_nat 2 * Z.to_nat 2) r.
Proof.
  apply (get_batch_tiles [ex_wide; ex_wide] 2 2 5).
  - discriminate.
  - repeat constructor.
  - lia.
Defined.

(** ** The pairs the training loop feeds to the network *)

Lemma get_cols start stop (a : ndarray2) i j :
  get (cols start stop a) i j = rows a !! i ≫= λ r, Py.slice start stop r !! j.
Proof.
  unfold get, cols. destruct (Py.slice_bounds _ _ _). cbn [rows].
  rewrite list_lookup_fmap. by destruct (rows a !! i).
Qed.

Lemma clamp_le n i : (Py.clamp n i ≤ n)%nat.
Proof. unfold Py.clamp. destruct (Z.ltb_spec i 0); lia. Qed.

Lemma wf_cols start stop (a : ndarray2) : wf a → wf (cols start stop a).
Proof.
  intros Hwf. unfold wf, cols.
  destruct (Py.slice_bounds (ncols a) start stop) as [lo hi] eqn:Hb. cbn [rows ncols].
  apply Forall_fmap. eapply Forall_impl; [exact Hwf|].
  intros r Hr. simpl in Hr |- *. unfold Py.slice. rewrite Hr, Hb.
  rewrite length_take, length_drop.
  unfold Py.slice_bounds in Hb. injection Hb as <- <-.
  assert (from_option (Py.clamp (ncols a)) (ncols a) stop ≤ ncols a)%nat.
  { destruct stop; simpl; [apply clamp_le | done]. }
  lia.
Qed.

(** An entry of a window is the entry [b * T] columns further right in the
    matrix the window was cut from. *)
Lemma window_entry (a : ndarray2) (b T : nat) i j v :
  get (cols (Some (Z.of_nat b * Z.of_nat T)) (Some ((Z.of_nat b + 1) * Z.of_nat T)) a) i j
    = Some v →
  get a i (b * T + j) = Some v ∧ (j < T)%nat.
Proof.
  rewrite get_cols. unfold get. destruct (rows a !! i) as [r|]; [|done]. simpl.
  unfold Py.slice, Py.slice_bounds, Py.clamp. cbn [from_option].
  destruct (Z.ltb_spec (Z.of_nat b * Z.of_nat T) 0),
    (Z.ltb_spec ((Z.of_nat b + 1) * Z.of_nat T) 0); try lia.
  intros Hv. apply lookup_take_Some in Hv as [Hv Hj]. rewrite lookup_drop in Hv.
  apply lookup_lt_Some in Hv as Hlt.
  split; [|lia]. rewrite <- Hv. f_equal. lia.
Qed.

Lemma window_entry_full (a : ndarray2) (b T : nat) i j :
  wf a → ((b + 1) * T ≤ ncols a)%nat → (j < T)%nat →
  get (cols (Some (Z.of_nat b * Z.of_nat T)) (Some ((Z.of_nat b + 1) * Z.of_nat T)) a) i j
    = get a i (b * T + j).
Proof.
  intros Hwf Hb Hj. rewrite cols_window by done. unfold get. cbn [rows].
  rewrite list_lookup_fmap. destruct (rows a !! i) as [r|]; [|done]. simpl.
  rewrite lookup_take_lt by done. apply lookup_drop.
Qed.

Lemma prefix_entry (a : ndarray2) (s : Z) i j v :
  get (cols None (Some s) a) i j = Some v → get a i j = Some v.
Proof.
  rewrite get_cols. unfold get. destruct (rows a !! i) as [r|]; [|done]. simpl.
  rewrite slice_until. intros Hv. by apply lookup_take_Some in Hv as [Hv _].
Qed.

Lemma prefix_entry_full (a : ndarray2) (s : Z) i j :
  wf a → (j < ncols (cols None (Some s) a))%nat →
  get (cols None (Some s) a) i j = get a i j.
Proof.
  intros Hwf Hj. rewrite get_cols. unfold get.
  destruct (rows a !! i) as [r|] eqn:Hr; [|done]. simpl.
  apply (proj1 (Forall_lookup _ _) Hwf) in Hr. simpl in Hr.
  rewrite slice_until, Hr. apply lookup_take_lt.
  unfold cols, Py.slice_bounds in Hj. simpl in Hj. lia.
Qed.

Lemma suffix_entry (a : ndarray2) (s : Z) i j :
  wf a →
  get (cols (Some s) None a) i j = get a i (Py.clamp (ncols a) s + j).
Proof.
  intros Hwf. rewrite get_cols. unfold get.
  destruct (rows a !! i) as [r|] eqn:Hr; [|done]. simpl.
  apply (proj1 (Forall_lookup _ _) Hwf) in Hr. simpl in Hr.
  unfold Py.slice, Py.slice_bounds. cbn [from_option]. rewrite Hr.
  rewrite take_ge by (rewrite length_drop; lia). apply lookup_drop.
Qed.

(** Where the entries of [x] and [y] sit in the corpus. *)
Lemma split_data_xy_entries chars batch_size num_steps x y :
  split_data_xy chars batch_size num_steps = Ok (x, y) →
  wf x ∧ wf y ∧ (ncols y ≤ ncols x)%nat ∧
  ncols x = Z.to_nat (Z.quot (Py.len chars) (batch_size * num_steps) * num_steps) ∧
  ∀ i j v, get y i j = Some v →
    is_Some (get x i j) ∧
    get x i j = chars !! (i * ncols x + j)%nat ∧
    chars !! (i * ncols x + j + 1)%nat = Some v.
Proof.
  intros Hxy.
  destruct (split_data_xy_inv _ _ _ _ _ Hxy)
    as (HB & HT & Hk0 & Hm & Hlen & -> & k' & -> & Hlen' & Hk').
  set (k := Z.to_nat (_ * num_steps)) in *.
  set (m := Z.to_nat (_ * (batch_size * num_steps))) in *.
  set (B := Z.to_nat batch_size) in *.
  split_and!.
  - apply wf_chunks. rewrite length_take. lia.
  - apply wf_chunks. lia.
  - simpl. lia.
  - done.
  - simpl. intros i j v Hv.
    destruct (get_chunks_Some _ _ _ _ _ _ Hv) as [Hi Hj].
    rewrite get_chunks in Hv by done.
    rewrite lookup_take_lt in Hv by nia.
    rewrite lookup_drop in Hv.
    assert (j < k)%nat as Hjk by lia.
    assert (i * k' = i * k)%nat as Hik.
    { destruct Hk' as [->|[HB1 _]]; [done|]. assert (i = 0)%nat as -> by lia. done. }
    rewrite Hik in Hv.
    rewrite get_chunks by done. rewrite lookup_take_lt by nia.
    split_and!; [apply lookup_lt_is_Some; nia | done |].
    rewrite <- Hv. f_equal. lia.
Qed.

Lemma get_lt_ncols (a : ndarray2) i j v :
  wf a → get a i j = Some v → (j < ncols a)%nat.
Proof.
  intros Hwf. unfold get. destruct (rows a !! i) as [r|] eqn:Hr; [|done]. simpl.
  apply (proj1 (Forall_lookup _ _) Hwf) in Hr. simpl in Hr.
  intros Hv. apply lookup_lt_Some in Hv. lia.
Qed.

(** The windows over a pair of matrices, for a positive window length. *)
Lemma get_batch_pair (ax ay : ndarray2) (T : nat) ws b w :
  (0 < T)%nat →
  get_batch [ax; ay] (Z.of_nat T) = Ok ws → ws !! b = Some w →
  ((b + 1) * T ≤ ncols ax)%nat ∧
  w = [cols (Some (Z.of_nat b * Z.of_nat T)) (Some ((Z.of_nat b + 1) * Z.of_nat T)) ax;
       cols (Some (Z.of_nat b * Z.of_nat T)) (Some ((Z.of_nat b + 1) * Z.of_nat T)) ay].
Proof.
  intros HT Hws Hw. rewrite get_batch_run in Hws by lia. injection Hws as <-.
  rewrite Nat2Z.id in Hw. rewrite list_lookup_fmap in Hw.
  destruct (seq 0 (ncols ax `div` T) !! b) as [b'|] eqn:Hb; [|done].
  apply lookup_seq in Hb as [-> Hb]. injection Hw as <-.
  split; [|done].
  pose proof (Nat.Div0.mul_div_le (ncols ax) T). nia.
Qed.

(** X5. Every pair of windows that the training loop takes from
    [get_batch([train_x, train_y], num_steps)] is a next-character pair: an
    entry of the target window is the corpus character one position after
    the corpus position [i * shard_len + b * num_steps + j] of the entry of
    the input window at the same place. *)
Theorem training_pairs
    chars batch_size num_steps split_frac train_x train_y val_x val_y :
  split_data chars batch_size num_steps split_frac = Ok (train_x, train_y, val_x, val_y) →
  0 < num_steps →
  let T := Z.to_nat num_steps in
  let shard_len :=
    Z.to_nat (Z.quot (Py.len chars) (batch_size * num_steps) * num_steps) in
  ∃ ws,
    get_batch [train_x; train_y] num_steps = Ok ws ∧
    length ws = (ncols train_x `div` T)%nat ∧
    ∀ b w, ws !! b = Some w →
      ∃ xw yw, w = [xw; yw] ∧
        ∀ i j v, get yw i j = Some v →
          is_Some (get xw i j) ∧
          get xw i j = chars !! (i * shard_len + b * T + j)%nat ∧
          chars !! (i * shard_len + b * T + j + 1)%nat = Some v.
Proof.
  intros Hsd HT T shard_len.
  destruct (split_data_parts _ _ _ _ _ _ _ _ Hsd)
    as (x & y & split_idx & Hxy & _ & Htx & Hty & _ & _).
  destruct (split_data_xy_entries _ _ _ _ _ Hxy) as (Hwfx & Hwfy & Hkk & Hk & Hent).
  fold shard_len in Hk.
  assert (num_steps = Z.of_nat T) as HTn by (unfold T; lia).
  assert (0 < T)%nat as HT' by (unfold T; lia).
  destruct (get_batch [train_x; train_y] num_steps) as [ws|] eqn:Hws;
    [|by rewrite get_batch_run in Hws by done].
  exists ws. split; [done|]. split.
  { rewrite get_batch_run in Hws by done. injection Hws as <-.
    by rewrite length_fmap, length_seq. }
  intros b w Hw. rewrite HTn in Hws.
  destruct (get_batch_pair _ _ _ _ _ _ HT' Hws Hw) as [Hb ->].
  eexists _, _. split; [done|].
  intros i j v Hv.
  apply window_entry in Hv as [Hv Hj]. rewrite Hty in Hv. apply prefix_entry in Hv.
  destruct (Hent _ _ _ Hv) as (Hsome & Hx & Hnext).
  assert (wf train_x) as Hwft by (rewrite Htx; by apply wf_cols).
  rewrite window_entry_full by done.
  rewrite Htx, prefix_entry_full by (rewrite <- ?Htx; done || lia).
  rewrite Hk in Hx, Hnext.
  replace (i * shard_len + b * T + j)%nat with (i * shard_len + (b * T + j))%nat by lia.
  done.
Qed.

Lemma training_pairs_witness :
  ∃ ws,
    get_batch [ex_train_x; ex_train_y] 2 = Ok ws ∧
    length ws = (ncols ex_train_x `div` Z.to_nat 2)%nat ∧
    ∀ b w, ws !! b = Some w →
      ∃ xw yw, w = [xw; yw] ∧
        ∀ i j v, get yw i j = Some v →
          is_Some (get xw i j) ∧
          get xw i j = ex_chars !!
            (i * Z.to_nat (Z.quot (Py.len ex_chars) (2 * 2) * 2) + b * Z.to_nat 2 + j)%nat ∧
          ex_chars !!
            (i * Z.to_nat (Z.quot (Py.len ex_chars) (2 * 2) * 2) + b * Z.to_nat 2 + j + 1)%nat
            = Some v.
Proof.
  apply (training_pairs ex_chars 2 2 1 ex_train_x ex_train_y ex_val ex_val).
  - vm_compute. reflexivity.
  - lia.
Defined.

(** X6. With a non-negative split fraction, every pair of windows of the
    validation pass, [get_batch([val_x, val_y], num_steps)], is a
    next-character pair as well: its entries sit [split_idx * num_steps]
    columns to the right of the training columns, at the corpus position
    [i * shard_len + split_idx * num_steps + b * num_steps + j], where
    [split_idx] is [int(n_batches*split_frac)]. *)
Theorem validation_pairs
    chars batch_size num_steps split_frac train_x train_y val_x val_y :
  split_data chars batch_size num_steps split_frac = Ok (train_x, train_y, val_x, val_y) →
  0 < num_steps → (0 ≤ split_frac)%Qc →
  let T := Z.to_nat num_steps in
  let n_batches := Z.quot (Py.len chars) (batch_size * num_steps) in
  let shard_len := Z.to_nat (n_batches * num_steps) in
  ∃ split_idx ws,
    Py.int_mul n_batches split_frac = Ok split_idx ∧
    get_batch [val_x; val_y] num_steps = Ok ws ∧
    length ws = (ncols val_x `div` T)%nat ∧
    ∀ b w, ws !! b = Some w →
      ∃ xw yw, w = [xw; yw] ∧
        ∀ i j v, get yw i j = Some v →
          is_Some (get xw i j) ∧
          get xw i j =
            chars !! (i * shard_len + Z.to_nat (split_idx * num_steps) + b * T + j)%nat ∧
          chars !! (i * shard_len + Z.to_nat (split_idx * num_steps) + b * T + j + 1)%nat
            = Some v.
Proof.
  intros Hsd HT Hf T n_batches shard_len.
  destruct (split_data_parts _ _ _ _ _ _ _ _ Hsd)
    as (x & y & split_idx & Hxy & Hmul & _ & _ & Hvx & Hvy).
  fold n_batches in Hmul.
  destruct (split_data_xy_entries _ _ _ _ _ Hxy) as (Hwfx & Hwfy & Hkk & Hk & Hent).
  fold n_batches shard_len in Hk.
  destruct (split_data_xy_inv _ _ _ _ _ Hxy) as (HB & _ & Hk0 & _).
  fold n_batches in Hk0.
  assert (0 ≤ split_idx * num_steps) as Hs.
  { apply Z.mul_nonneg_nonneg; [|lia].
    apply (int_mul_nonneg n_batches split_frac); [nia | done | done]. }
  set (s := split_idx * num_steps) in *.
  set (start := Z.to_nat s).
  assert (num_steps = Z.of_nat T) as HTn by (unfold T; lia).
  assert (0 < T)%nat as HT' by (unfold T; lia).
  destruct (get_batch [val_x; val_y] num_steps) as [ws|] eqn:Hws;
    [|by rewrite get_batch_run in Hws by done].
  exists split_idx, ws. split; [done|]. split; [done|]. split.
  { rewrite get_batch_run in Hws by done. injection Hws as <-.
    by rewrite length_fmap, length_seq. }
  intros b w Hw. rewrite HTn in Hws.
  destruct (get_batch_pair _ _ _ _ _ _ HT' Hws Hw) as [Hb ->].
  eexists _, _. split; [done|].
  intros i j v Hv.
  apply window_entry in Hv as [Hv Hj]. rewrite Hvy, suffix_entry in Hv by done.
  pose proof (get_lt_ncols _ _ _ _ Hwfy Hv) as Hcol.
  assert (Py.clamp (ncols y) s = start ∧ Py.clamp (ncols x) s = start) as [Hcy Hcx].
  { unfold Py.clamp in *. destruct (Z.ltb_spec s 0); [lia|]. unfold start. lia. }
  rewrite Hcy in Hv.
  destruct (Hent _ _ _ Hv) as (Hsome & Hx & Hnext).
  assert (wf val_x) as Hwfv by (rewrite Hvx; by apply wf_cols).
  rewrite window_entry_full by done.
  rewrite Hvx, suffix_entry, Hcx by done.
  rewrite Hk in Hx, Hnext.
  change (Z.to_nat (split_idx * num_steps)) with start.
  replace (i * shard_len + start + b * T + j)%nat
    with (i * shard_len + (start + (b * T + j)))%nat by lia.
  done.
Qed.

Lemma validation_pairs_witness :
  ∃ split_idx ws,
    Py.int_mul (Z.quot (Py.len ex_fifty_chars) (1 * 2)) ex_frac = Ok split_idx ∧
    get_batch [ex_fifty_val_x; ex_fifty_val_y] 2 = Ok ws ∧
    length ws = (ncols ex_fifty_val_x `div` Z.to_nat 2)%nat ∧
    ∀ b w, ws !! b = Some w →
      ∃ xw yw, w = [xw; yw] ∧
        ∀ i j v, get yw i j = Some v →
          is_Some (get xw i j) ∧
          get xw i j = ex_fifty_chars !!
            (i * Z.to_nat (Z.quot (Py.len ex_fifty_chars) (1 * 2) * 2)
             + Z.to_nat (split_idx * 2) + b * Z.to_nat 2 + j)%nat ∧
          ex_fifty_chars !!
            (i * Z.to_nat (Z.quot (Py.len ex_fifty_chars) (1 * 2) * 2)
             + Z.to_nat (split_idx * 2) + b * Z.to_nat 2 + j + 1)%nat
            = Some v.
Proof.
  apply (validation_pairs ex_fifty_chars 1 2 ex_frac
           ex_fifty_train_x ex_fifty_train_y ex_fifty_val_x ex_fifty_val_y).
  - vm_compute. reflexivity.
  - lia.
  - by vm_compute.
Defined.

(** ** More on [pick_top_n]: edge cases and effects *)

Section pick_top_n_edges.
Import NpFloat.
Variable argsort : list Qc → list nat.
Hypothesis Hsort : argsort_spec argsort.

(** Whatever [top_n] is, a call on an array of more than one class (or of
    none) leaves the truncated values in the caller's buffer. *)
Lemma pick_top_n_heap_vector preds vocab_size top_n w :
  length (heap w !!! base preds) ≠ 1%nat →
  heap (pick_top_n argsort preds vocab_size top_n w).1 !!! base preds
  = truncated argsort top_n (heap w !!! base preds).
Proof.
  intros HV. rewrite pick_top_n_run by done.
  set (p' := truncated argsort top_n (heap w !!! base preds)).
  set (h1 := <[base preds := p']> (heap w)).
  set (b' := fresh (dom h1)).
  assert (b' ≠ base preds) as Hb'.
  { intros Heq. apply (is_fresh (dom h1)). fold b'. rewrite Heq.
    unfold h1. rewrite dom_insert. set_solver. }
  destruct (decide (sum p' = 0%Qc)).
  - simpl. apply lookup_total_insert_eq.
  - pose proof (random_choice_heap vocab_size (Vector b')
                  (World (<[b' := renormalized p']> h1) (entropy w))) as Hh.
    destruct (random_choice _ _ _) as [w2 r]. simpl in Hh |- *. rewrite Hh.
    rewrite lookup_total_insert_ne by done. apply lookup_total_insert_eq.
Qed.

(** With [top_n <= 0] the slice [[:-top_n]] counts from the front: the
    first [-top_n] places of the ascending order are zeroed. *)
Lemma truncated_lookup_nonpos p (top_n : Z) k j :
  top_n ≤ 0 → argsort p !! k = Some j →
  truncated argsort top_n p !!! j =
  if decide (k < Z.to_nat (- top_n))%nat then 0%Qc else p !!! j.
Proof.
  intros HN Hk. unfold truncated.
  rewrite slice_until, lookup_total_zero_at.
  pose proof (lookup_lt_Some _ _ _ Hk) as Hlt.
  set (n := Py.clamp (length (argsort p)) (- top_n)).
  assert (k < n ↔ k < Z.to_nat (- top_n))%nat as Hn.
  { unfold n, Py.clamp. destruct (Z.ltb_spec (- top_n) 0); lia. }
  destruct (decide (j ∈ take n (argsort p))) as [Hin|Hnin],
    (decide (k < Z.to_nat (- top_n))%nat) as [Hlt'|Hge]; try done.
  - apply elem_of_take in Hin as (i & Hi & Hlti).
    pose proof (NoDup_lookup _ _ _ _ (NoDup_argsort _ Hsort p) Hk Hi). lia.
  - exfalso. apply Hnin, elem_of_take. exists k. split; [done | lia].
Qed.

End pick_top_n_edges.

(** X7. [top_n = 0] does not mean "keep nothing": [[:-0]] is the empty
    slice, so the call leaves the caller's array as it was and, on a
    distribution over more than one class, returns the index that the
    untruncated distribution gives for the draw.  A negative [top_n] zeroes
    the [-top_n] smallest entries instead of keeping the largest. *)
Theorem pick_top_n_nonpositive
    (argsort : list Qc → list nat) preds vocab_size top_n w :
  NpFloat.argsort_spec argsort →
  top_n ≤ 0 →
  let p := heap w !!! base preds in
  let run := pick_top_n argsort preds vocab_size top_n w in
  (top_n = 0 → heap run.1 !!! base preds = p) ∧
  (length p ≠ 1%nat → ∀ k j, argsort p !! k = Some j →
     (heap run.1 !!! base preds) !!! j =
     if decide (k < Z.to_nat (- top_n))%nat then 0%Qc else p !!! j) ∧
  (top_n = 0 → length p ≠ 1%nat → vocab_size = Py.len p →
   (∀ x, x ∈ p → 0 ≤ x)%Qc → NpFloat.sum p = 1%Qc →
     run.2 = Ok (NpFloat.searchsorted_right (NpFloat.cumsum 0%Qc p) (entropy w 0%nat))).
Proof.
  intros Hsort HN p run.
  assert (top_n = 0 → truncated argsort top_n p = p) as Hsame.
  { intros ->. unfold truncated. rewrite slice_until.
    replace (Py.clamp (length (argsort p)) (- 0)) with 0%nat; [done|].
    unfold Py.clamp. simpl. lia. }
  split_and!.
  - intros H0. destruct (decide (length p = 1%nat)) as [HV|HV].
    + unfold run. by rewrite pick_top_n_singleton.
    + unfold run. rewrite pick_top_n_heap_vector by done. by apply Hsame.
  - intros HV k j Hk. unfold run. rewrite pick_top_n_heap_vector by done.
    by apply truncated_lookup_nonpos.
  - intros H0 HV Hvs Hnonneg Hsum. unfold run.
    rewrite pick_top_n_run by done. fold p. rewrite Hsame by done.
    rewrite Hsum. rewrite decide_False by (intros Heq; by apply Q_apart_0_1 in Heq).
    rewrite random_choice_run. cbn [heap entropy].
    rewrite lookup_total_insert_eq, renormalized_unit by done.
    assert (p ≠ []) as Hne.
    { intros Hp. rewrite Hp in Hsum. simpl in Hsum. symmetry in Hsum.
      by apply Q_apart_0_1 in Hsum. }
    rewrite decide_False by (rewrite Hvs; unfold Py.len; destruct p; [done | simpl; lia]).
    rewrite decide_False by (intros Hne'; by apply Hne').
    rewrite existsb_negative_false by done.
    rewrite decide_False by (intros Hne'; by apply Hne'). done.
Qed.

Lemma pick_top_n_nonpositive_witness :
  let p := ex_preds in
  let run := pick_top_n argsort_stable (NdArray 0%nat) 4 0 ex_world in
  (0 = 0 → heap run.1 !!! 0%nat = p) ∧
  (length p ≠ 1%nat → ∀ k j, argsort_stable p !! k = Some j →
     (heap run.1 !!! 0%nat) !!! j =
     if decide (k < Z.to_nat (- 0))%nat then 0%Qc else p !!! j) ∧
  (0 = 0 → length p ≠ 1%nat → 4 = Py.len p →
   (∀ x, x ∈ p → 0 ≤ x)%Qc → NpFloat.sum p = 1%Qc →
     run.2 = Ok (NpFloat.searchsorted_right (NpFloat.cumsum 0%Qc p) (Q2Qc (1 # 3)))).
Proof.
  apply (pick_top_n_nonpositive argsort_stable (NdArray 0%nat) 4 0 ex_world).
  - apply argsort_stable_spec.
  - lia.
Defined.

(** X8. When [vocab_size] is not the number of classes of the prediction
    array (and that number is not one), [pick_top_n] raises [ValueError]
    without drawing a random number, but only after it has written the
    truncation into the caller's array. *)
Theorem pick_top_n_wrong_vocab_size
    (argsort : list Qc → list nat) preds vocab_size top_n w :
  NpFloat.argsort_spec argsort →
  let p := heap w !!! base preds in
  length p ≠ 1%nat → vocab_size ≠ Py.len p →
  let run := pick_top_n argsort preds vocab_size top_n w in
  run.2 = Raise ValueError ∧
  heap run.1 !!! base preds = truncated argsort top_n p ∧
  entropy run.1 = entropy w.
Proof.
  intros Hsort p HV Hvs run. split_and!.
  - unfold run. rewrite pick_top_n_run by done. fold p.
    destruct (decide _); [done|].
    rewrite random_choice_run. cbn [heap entropy].
    rewrite lookup_total_insert_eq.
    destruct (decide (vocab_size ≤ 0)); [done|].
    rewrite decide_True; [done|].
    unfold Py.len, renormalized in *. rewrite length_fmap, length_truncated. congruence.
  - unfold run. by apply pick_top_n_heap_vector.
  - unfold run. rewrite pick_top_n_run by done. fold p.
    destruct (decide _); [done|].
    rewrite random_choice_run. cbn [heap entropy].
    rewrite lookup_total_insert_eq.
    destruct (decide (vocab_size ≤ 0)); [done|].
    rewrite decide_True; [done|].
    unfold Py.len, renormalized in *. rewrite length_fmap, length_truncated. congruence.
Qed.

Lemma pick_top_n_wrong_vocab_size_witness :
  let run := pick_top_n argsort_stable (NdArray 0%nat) 3 2 ex_world in
  run.2 = Raise ValueError ∧
  heap run.1 !!! 0%nat = truncated argsort_stable 2 ex_preds ∧
  entropy run.1 = entropy ex_world.
Proof.
  apply (pick_top_n_wrong_vocab_size argsort_stable (NdArray 0%nat) 3 2 ex_world).
  - apply argsort_stable_spec.
  - by vm_compute.
  - by vm_compute.
Defined.

(** X9. Whatever the inputs and the sort routine, [pick_top_n] takes
    exactly one number from the random generator when it returns an index,
    and none when it raises. *)
Theorem pick_top_n_draws (argsort : list Qc → list nat) preds vocab_size top_n w :
  let run := pick_top_n argsort preds vocab_size top_n w in
  entropy run.1 =
  match run.2 with
  | Ok _ => λ n, entropy w (S n)
  | Raise _ => entropy w
  end.
Proof.
  unfold pick_top_n, NpFloat.squeeze, NpFloat.setitem_zero, NpFloat.normalized,
    NpFloat.random_choice, random_sample, read, write, alloc, raise,
    mbind, M_bind, mret, M_ret.
  simpl. repeat (case_match; simpl; try done); simplify_eq/=; done.
Qed.

(** ** More on [sample] *)

Lemma pick_top_n_Ok_entropy (argsort : list Qc → list nat) preds vocab_size top_n w w' c :
  pick_top_n argsort preds vocab_size top_n w = (w', Ok c) →
  entropy w' = λ n, entropy w (S n).
Proof.
  unfold pick_top_n, NpFloat.squeeze, NpFloat.setitem_zero, NpFloat.normalized,
    NpFloat.random_choice, random_sample, read, write, alloc, raise,
    mbind, M_bind, mret, M_ret.
  simpl. repeat (case_match; simpl; try done); intros; simplify_eq/=; done.
Qed.

Section sample_effects.
Context {S : Type}.
Variable argsort : list Qc → list nat.
Variable restore : string → Z → Z → result (rnn S).
Variable G : globals.

Lemma sess_run_Ok (model : rnn S) x new_state w :
  ∃ b, sess_run model x new_state w =
       (World (<[b := (@step S model x new_state).1]> (heap w)) (entropy w),
        Ok (NdArray b, (@step S model x new_state).2)) ∧
       b = fresh (dom (heap w)).
Proof.
  unfold sess_run. destruct (@step S model x new_state) as [out st].
  eexists. split; [|done]. done.
Qed.

Lemma sess_run_entropy (model : rnn S) x new_state w w' r :
  sess_run model x new_state w = (w', r) → entropy w' = entropy w.
Proof.
  destruct (sess_run_Ok model x new_state w) as (b & -> & _). by intros [= <- _].
Qed.

Lemma lift_inv {A} (r : result A) w w' a : lift r w = (w', Ok a) → w' = w ∧ r = Ok a.
Proof. unfold lift. by intros [= -> ->]. Qed.

Lemma prime_loop_entropy (model : rnn S) prime preds new_state w w' r :
  prime_loop G model prime preds new_state w = (w', r) → entropy w' = entropy w.
Proof.
  revert preds new_state w. induction prime as [|c prime IH]; intros preds new_state w.
  { by intros [= <- _]. }
  cbn [prime_loop]. unfold mbind, M_bind at 1. unfold lift at 1.
  destruct (getitem (g_vocab_to_int G) c) as [x|e]; [|by intros [= <- _]].
  unfold M_bind.
  destruct (sess_run model x new_state w) as [w1 [[preds1 st1]|e]] eqn:Hrun.
  - apply sess_run_entropy in Hrun. intros Hloop. apply IH in Hloop. congruence.
  - apply sess_run_entropy in Hrun. by intros [= <- _].
Qed.

Lemma sample_loop_entropy (model : rnn S) n c new_state samples w w' out :
  sample_loop argsort G model n c new_state samples w = (w', Ok out) →
  ∀ k, entropy w' k = entropy w (k + n)%nat.
Proof.
  revert c new_state samples w. induction n as [|n IH]; intros c new_state samples w Hrun k.
  { injection Hrun as <- _. by rewrite Nat.add_0_r. }
  cbn [sample_loop] in Hrun.
  apply bind_Ok_inv in Hrun as (w1 & [preds st] & Hsess & Hrun).
  apply bind_Ok_inv in Hrun as (w2 & c' & Hpick & Hrun).
  apply bind_Ok_inv in Hrun as (w3 & ch & Hget & Hrun).
  apply lift_inv in Hget as [-> _].
  apply sess_run_entropy in Hsess. apply pick_top_n_Ok_entropy in Hpick.
  rewrite (IH _ _ _ _ Hrun k), Hpick, Hsess. f_equal. lia.
Qed.

(** X10. A call of [sample] that returns has taken exactly
    [n_samples + 1] numbers from the random generator. *)
Theorem sample_draws checkpoint n_samples lstm_size vocab_size prime w w' out :
  sample argsort restore G checkpoint n_samples lstm_size vocab_size prime w = (w', Ok out) →
  ∀ k, entropy w' k = entropy w (k + Datatypes.S (Z.to_nat n_samples))%nat.
Proof.
  unfold sample. intros Hrun k.
  apply bind_Ok_inv in Hrun as (w1 & model & Hres & Hrun).
  apply lift_inv in Hres as [-> _].
  apply bind_Ok_inv in Hrun as (w2 & [[preds|] st] & Hprime & Hrun); [|done].
  apply bind_Ok_inv in Hrun as (w3 & c & Hpick & Hrun).
  apply bind_Ok_inv in Hrun as (w4 & ch & Hget & Hrun).
  apply lift_inv in Hget as [-> _].
  apply bind_Ok_inv in Hrun as (w5 & samples & Hloop & Hret).
  injection Hret as <- _.
  apply prime_loop_entropy in Hprime. apply pick_top_n_Ok_entropy in Hpick.
  rewrite (sample_loop_entropy _ _ _ _ _ _ _ _ Hloop k), Hpick, Hprime. f_equal. lia.
Qed.

(** X11. Whatever [prime] is passed, [sample] raises [KeyError] as soon as
    the vocabulary lacks one of the characters of "Far". *)
Theorem sample_needs_Far checkpoint n_samples lstm_size vocab_size prime w model :
  restore checkpoint lstm_size vocab_size = Ok model →
  (∃ c, c ∈ String.list_ascii_of_string "Far" ∧ g_vocab_to_int G !! c = None) →
  (sample argsort restore G checkpoint n_samples lstm_size vocab_size prime w).2
  = Raise KeyError.
Proof.
  intros Hres (c & Hc & Hnone). unfold sample. rewrite Hres.
  unfold mbind at 1, M_bind at 1, lift at 1.
  assert (∀ cs preds st w0,
            c ∈ cs → (prime_loop G model cs preds st w0).2 = Raise KeyError) as Hloop.
  { intros cs. induction cs as [|c0 cs IH]; intros preds st w0 Hin.
    { by apply elem_of_nil in Hin. }
    cbn [prime_loop]. unfold mbind, M_bind at 1. unfold lift at 1, getitem at 1.
    destruct (decide (c = c0)) as [<-|Hne].
    - by rewrite Hnone.
    - apply elem_of_cons in Hin as [?|Hin]; [done|].
      destruct (g_vocab_to_int G !! c0) as [x|]; [|done].
      unfold M_bind. destruct (sess_run_Ok model x st w0) as (b & -> & _).
      by apply IH. }
  specialize (Hloop (String.list_ascii_of_string "Far") None (@initial_state S model) w Hc).
  unfold mbind, M_bind.
  destruct (prime_loop _ _ _ _ _ _) as [w1 [a|e]]; simpl in *; [done|].
  congruence.
Qed.

End sample_effects.

Lemma sample_draws_witness :
  entropy (sample argsort_stable (λ _ _ _, Ok ex_net) ex_globals
             "anna.ckpt" 2 512 3 "Far" (World ∅ (λ n, Q2Qc (1 # Pos.of_nat (3 + n))))).1
    0%nat
  = Q2Qc (1 # 6).
Proof.
  rewrite (sample_draws argsort_stable (λ _ _ _, Ok ex_net) ex_globals
             "anna.ckpt" 2 512 3 "Far" (World ∅ (λ n, Q2Qc (1 # Pos.of_nat (3 + n))))
             (sample argsort_stable (λ _ _ _, Ok ex_net) ex_globals
                "anna.ckpt" 2 512 3 "Far"
                (World ∅ (λ n, Q2Qc (1 # Pos.of_nat (3 + n))))).1
             "FarFFF").
  - decide_by_compute.
  - vm_compute. reflexivity.
Defined.

Lemma sample_needs_Far_witness :
  (sample argsort_stable (λ _ _ _, Ok ex_net) (notebook_globals remove_dups "The ")
     "anna.ckpt" 2 512 4 "The " (World ∅ (λ _, Q2Qc (1 # 3)))).2
  = Raise KeyError.
Proof.
  apply (sample_needs_Far argsort_stable (λ _ _ _, Ok ex_net)
           (notebook_globals remove_dups "The ") "anna.ckpt" 2 512 4 "The "
           (World ∅ (λ _, Q2Qc (1 # 3))) ex_net).
  - reflexivity.
  - exists "F"%char. split; [by left | vm_compute; reflexivity].
Defined.

(** ** What [sample] writes, and when it returns *)

Lemma getitem_Ok `{Countable K} {V} (d : gmap K V) k v :
  getitem d k = Ok v ↔ d !! k = Some v.
Proof.
  unfold getitem. destruct (d !! k); split; intros Heq; by simplify_eq.
Qed.

Section sample_alphabet_facts.
Context {S : Type}.
Variable argsort : list Qc → list nat.
Variable restore : string → Z → Z → result (rnn S).
Variable G : globals.

(** The priming loop gets through only if every priming character has a
    code. *)
Lemma prime_loop_keys (model : rnn S) cs preds new_state w w' r :
  prime_loop G model cs preds new_state w = (w', Ok r) →
  ∀ c, c ∈ cs → is_Some (g_vocab_to_int G !! c).
Proof.
  revert preds new_state w. induction cs as [|c0 cs IH]; intros preds new_state w Hrun c Hc.
  { by apply elem_of_nil in Hc. }
  cbn [prime_loop] in Hrun.
  apply bind_Ok_inv in Hrun as (w1 & x & Hget & Hrun).
  apply lift_inv in Hget as [-> Hget]. apply getitem_Ok in Hget.
  apply bind_Ok_inv in Hrun as (w2 & [preds1 st1] & _ & Hrun).
  apply elem_of_cons in Hc as [->|Hc]; [eauto|].
  by eapply IH.
Qed.

(** Every character the generation loop appends is the character of some
    code in [int_to_vocab]. *)
Lemma sample_loop_chars (model : rnn S) n c new_state samples w w' out :
  sample_loop argsort G model n c new_state samples w = (w', Ok out) →
  ∃ generated,
    out = samples ++ generated ∧
    Forall (λ ch, ∃ code, g_int_to_vocab G !! code = Some ch) generated.
Proof.
  revert c new_state samples w. induction n as [|n IH]; intros c new_state samples w Hrun.
  { injection Hrun as _ <-. exists []. by rewrite app_nil_r. }
  cbn [sample_loop] in Hrun.
  apply bind_Ok_inv in Hrun as (w1 & [preds st] & _ & Hrun).
  apply bind_Ok_inv in Hrun as (w2 & c' & _ & Hrun).
  apply bind_Ok_inv in Hrun as (w3 & ch & Hget & Hrun).
  apply lift_inv in Hget as [-> Hget]. apply getitem_Ok in Hget.
  apply IH in Hrun as (generated & -> & Hall).
  exists (ch :: generated). split; [by rewrite <- app_assoc|].
  constructor; eauto.
Qed.

Lemma sample_chars checkpoint n_samples lstm_size vocab_size prime w w' out :
  sample argsort restore G checkpoint n_samples lstm_size vocab_size prime w = (w', Ok out) →
  ∀ ch, ch ∈ String.list_ascii_of_string out →
    is_Some (g_vocab_to_int G !! ch) ∨ ∃ code, g_int_to_vocab G !! code = Some ch.
Proof.
  unfold sample. intros Hrun ch Hch.
  apply bind_Ok_inv in Hrun as (w1 & model & _ & Hrun).
  apply bind_Ok_inv in Hrun as (w2 & [[preds|] st] & Hprime & Hrun); [|done].
  apply bind_Ok_inv in Hrun as (w3 & c & _ & Hrun).
  apply bind_Ok_inv in Hrun as (w4 & ch0 & Hget & Hrun).
  apply lift_inv in Hget as [-> Hget]. apply getitem_Ok in Hget.
  apply bind_Ok_inv in Hrun as (w5 & samples & Hloop & Hret).
  injection Hret as _ <-.
  apply sample_loop_chars in Hloop as (generated & -> & Hall).
  rewrite String.list_ascii_of_string_of_list_ascii in Hch.
  rewrite !elem_of_app in Hch. destruct Hch as [[Hch|Hch]|Hch].
  - left. by eapply prime_loop_keys.
  - right. apply list_elem_of_singleton in Hch as ->. eauto.
  - right. by apply (proj1 (Forall_forall _ _) Hall).
Qed.

End sample_alphabet_facts.

(** X12. With the globals that the vocabulary cell builds from a text,
    every character of a string that [sample] returns, the leading "Far"
    included, occurs in that text. *)
Theorem sample_alphabet {S : Type} (argsort : list Qc → list nat)
    (restore : string → Z → Z → result (rnn S))
    (set_iter : list ascii → list ascii) (text : string)
    checkpoint n_samples lstm_size vocab_size prime w w' out :
  set_order set_iter →
  sample argsort restore (notebook_globals set_iter text)
    checkpoint n_samples lstm_size vocab_size prime w = (w', Ok out) →
  ∀ ch, ch ∈ String.list_ascii_of_string out → ch ∈ String.list_ascii_of_string text.
Proof.
  intros Hset Hrun ch Hch.
  apply (set_iter_elem _ Hset). fold (vocab set_iter text).
  destruct (sample_chars _ _ _ _ _ _ _ _ _ _ _ Hrun ch Hch) as [[i Hi]|[i Hi]];
    cbn [notebook_globals g_vocab_to_int g_int_to_vocab] in Hi.
  - apply vocab_to_int_lookup in Hi; [|done]. by apply list_elem_of_lookup_2 in Hi.
  - apply int_to_vocab_lookup in Hi. by apply list_elem_of_lookup_2 in Hi.
Qed.

Lemma sample_alphabet_witness :
  Forall (λ ch, ch ∈ String.list_ascii_of_string "Far")
    (String.list_ascii_of_string "FarFFF").
Proof.
  apply Forall_forall.
  apply (sample_alphabet argsort_stable (λ _ _ _, Ok ex_net) remove_dups "Far"
           "anna.ckpt" 2 512 3 "Far" (World ∅ (λ _, Q2Qc (1 # 3)))
           (sample argsort_stable (λ _ _ _, Ok ex_net) (notebook_globals remove_dups "Far")
              "anna.ckpt" 2 512 3 "Far" (World ∅ (λ _, Q2Qc (1 # 3)))).1).
  - apply remove_dups_order.
  - vm_compute. reflexivity.
Defined.

(** On a distribution over more than one class, with the class count as
    [vocab_size], [top_n >= 1] and a draw in [0, 1), [pick_top_n] returns an
    index of the array. *)
Lemma pick_top_n_returns (argsort : list Qc → list nat) preds vocab_size top_n w :
  NpFloat.argsort_spec argsort →
  let p := heap w !!! base preds in
  1 ≤ top_n → length p ≠ 1%nat → vocab_size = Py.len p →
  (∀ x, x ∈ p → 0 ≤ x)%Qc → NpFloat.sum p = 1%Qc →
  (0 ≤ entropy w 0%nat)%Qc → (entropy w 0%nat < 1)%Qc →
  ∃ w' c, pick_top_n argsort preds vocab_size top_n w = (w', Ok c) ∧ (c < length p)%nat.
Proof.
  intros Hsort p HN HV Hvs Hnonneg Hsum Hu0 Hu1.
  set (kept := truncated argsort top_n p).
  set (q := renormalized kept).
  assert (0 < NpFloat.sum kept)%Qc as Hkept by by apply truncated_sum_pos.
  assert (NpFloat.sum kept ≠ 0%Qc) as Hkept0.
  { intros Heq. rewrite Heq in Hkept. by apply Qclt_not_eq in Hkept. }
  assert (NpFloat.sum q = 1%Qc) as Hq1 by by apply sum_renormalized.
  assert (length q = length p) as Hlenq.
  { unfold q, renormalized, kept. by rewrite length_fmap, length_truncated. }
  assert (p ≠ []) as Hne.
  { intros Hp. rewrite Hp in Hsum. simpl in Hsum. symmetry in Hsum.
    by apply Q_apart_0_1 in Hsum. }
  rewrite pick_top_n_run by done. fold p. fold kept.
  rewrite decide_False by done.
  rewrite random_choice_run. cbn [heap entropy].
  rewrite lookup_total_insert_eq. fold q.
  rewrite decide_False by (rewrite Hvs; unfold Py.len; destruct p; [done | simpl; lia]).
  rewrite decide_False
    by (rewrite Hvs; unfold Py.len; rewrite Hlenq; intros Hne'; by apply Hne').
  rewrite (existsb_negative_false q)
    by (apply renormalized_nonneg; [done | by apply truncated_nonneg]).
  rewrite decide_False by (intros Hne'; by apply Hne').
  destruct (searchsorted_cumsum q 0%Qc (entropy w 0%nat)) as [Hc _];
    [done | by rewrite Qcplus_0_l, Hq1 |].
  rewrite Hlenq in Hc. eauto.
Qed.

Section sample_returns_facts.
Context {S : Type}.
Variable argsort : list Qc → list nat.
Hypothesis Hsort : NpFloat.argsort_spec argsort.
Variable G : globals.
Variable model : rnn S.

(** The network always answers with a distribution over the vocabulary. *)
Hypothesis Hmodel : ∀ x st,
  length (@step S model x st).1 = length (g_vocab G) ∧
  (∀ y, y ∈ (@step S model x st).1 → 0 ≤ y)%Qc ∧
  NpFloat.sum (@step S model x st).1 = 1%Qc.
Hypothesis HV : length (g_vocab G) ≠ 1%nat.
Hypothesis Hcodes : ∀ c, (c < length (g_vocab G))%nat → is_Some (g_int_to_vocab G !! c).

(** One evaluation of the network followed by one pick. *)
Lemma run_and_pick x new_state w :
  (∀ n, 0 ≤ entropy w n ∧ entropy w n < 1)%Qc →
  ∃ w1 preds st w2 c ch,
    sess_run model x new_state w = (w1, Ok (preds, st)) ∧
    pick_top_n argsort preds (Py.len (g_vocab G)) 5 w1 = (w2, Ok c) ∧
    g_int_to_vocab G !! c = Some ch ∧
    (∀ n, 0 ≤ entropy w2 n ∧ entropy w2 n < 1)%Qc.
Proof.
  intros Hent.
  destruct (sess_run_Ok model x new_state w) as (b & Hsess & _).
  destruct (Hmodel x new_state) as (Hlen & Hnonneg & Hsum).
  set (w1 := World (<[b := (@step S model x new_state).1]> (heap w)) (entropy w)) in *.
  assert (heap w1 !!! base (NdArray b) = (@step S model x new_state).1) as Hp.
  { apply lookup_total_insert_eq. }
  destruct (pick_top_n_returns argsort (NdArray b) (Py.len (g_vocab G)) 5 w1 Hsort)
    as (w2 & c & Hpick & Hc).
  - lia.
  - by rewrite Hp, Hlen.
  - unfold Py.len. by rewrite Hp, Hlen.
  - by rewrite Hp.
  - by rewrite Hp.
  - apply Hent.
  - apply Hent.
  - rewrite Hp, Hlen in Hc. destruct (Hcodes c Hc) as [ch Hch].
    exists w1, (NdArray b), (@step S model x new_state).2, w2, c, ch.
    split_and!; [done | done | done |].
    intros n. rewrite (pick_top_n_Ok_entropy _ _ _ _ _ _ _ Hpick). apply Hent.
Qed.

Lemma prime_loop_returns cs preds new_state w :
  (∀ c, c ∈ cs → is_Some (g_vocab_to_int G !! c)) →
  ∃ w' r, prime_loop G model cs preds new_state w = (w', Ok r) ∧
          entropy w' = entropy w ∧
          (cs ≠ [] → ∃ b, r.1 = Some (NdArray b) ∧
             ∃ x st, heap w' !!! b = (@step S model x st).1).
Proof.
  revert preds new_state w. induction cs as [|c cs IH]; intros preds new_state w Hkeys.
  { exists w, (preds, new_state). by split_and!. }
  destruct (Hkeys c) as [x Hx]; [by left|].
  destruct (sess_run_Ok model x new_state w) as (b & Hsess & Hb).
  set (w1 := World (<[b := (@step S model x new_state).1]> (heap w)) (entropy w)) in *.
  destruct (IH (Some (NdArray b)) (@step S model x new_state).2 w1)
    as (w' & r & Hloop & Hent & Hlast).
  { intros c' Hc'. apply Hkeys. by right. }
  exists w', r. split_and!.
  - cbn [prime_loop]. unfold mbind, M_bind at 1. unfold lift at 1, getitem at 1.
    rewrite Hx. unfold M_bind. by rewrite Hsess.
  - by rewrite Hent.
  - intros _. destruct cs as [|c' cs].
    + injection Hloop as <- <-. exists b. split; [done|].
      exists x, new_state. apply lookup_total_insert_eq.
    + by apply Hlast.
Qed.

Lemma sample_loop_returns n c new_state samples w :
  (∀ k, 0 ≤ entropy w k ∧ entropy w k < 1)%Qc →
  ∃ w' out, sample_loop argsort G model n c new_state samples w = (w', Ok out).
Proof.
  revert c new_state samples w. induction n as [|n IH]; intros c new_state samples w Hent.
  { by exists w, samples. }
  destruct (run_and_pick c new_state w Hent)
    as (w1 & preds & st & w2 & c' & ch & Hsess & Hpick & Hch & Hent2).
  destruct (IH c' st (samples ++ [ch]) w2 Hent2) as (w' & out & Hloop).
  exists w', out. cbn [sample_loop]. unfold mbind, M_bind at 1. rewrite Hsess.
  unfold M_bind at 1. rewrite Hpick.
  unfold M_bind at 1, lift at 1, getitem at 1. by rewrite Hch.
Qed.

End sample_returns_facts.

(** X13. [sample] returns a string whenever the checkpoint restores, the
    text the vocabulary was built from contains the characters of "Far",
    the network always answers with a probability distribution over the
    vocabulary, and the random generator hands out numbers in [0, 1). *)
Theorem sample_returns {S : Type} (argsort : list Qc → list nat)
    (restore : string → Z → Z → result (rnn S))
    (set_iter : list ascii → list ascii) (text : string)
    checkpoint n_samples lstm_size vocab_size prime w (model : rnn S) :
  NpFloat.argsort_spec argsort →
  set_order set_iter →
  restore checkpoint lstm_size vocab_size = Ok model →
  (∀ c, c ∈ String.list_ascii_of_string "Far" → c ∈ String.list_ascii_of_string text) →
  (∀ x st,
     length (@step S model x st).1 = length (vocab set_iter text) ∧
     (∀ y, y ∈ (@step S model x st).1 → 0 ≤ y)%Qc ∧
     NpFloat.sum (@step S model x st).1 = 1%Qc) →
  (∀ k, 0 ≤ entropy w k ∧ entropy w k < 1)%Qc →
  ∃ w' out,
    sample argsort restore (notebook_globals set_iter text)
      checkpoint n_samples lstm_size vocab_size prime w = (w', Ok out).
Proof.
  intros Hsort Hset Hres HFar Hmodel Hent.
  set (G := notebook_globals set_iter text).
  assert (∀ c, c ∈ String.list_ascii_of_string "Far" → is_Some (g_vocab_to_int G !! c))
    as Hkeys.
  { intros c Hc. apply HFar, (set_iter_elem _ Hset) in Hc. fold (vocab set_iter text) in Hc.
    apply list_elem_of_lookup in Hc as [i Hi]. exists i. by apply vocab_to_int_lookup. }
  assert (∀ c, (c < length (g_vocab G))%nat → is_Some (g_int_to_vocab G !! c)) as Hcodes.
  { intros c Hc. apply lookup_lt_is_Some in Hc as [ch Hch].
    exists ch. by apply int_to_vocab_lookup. }
  assert (length (g_vocab G) ≠ 1%nat) as HV.
  { destruct (Hkeys "F"%char) as [i Hi]; [by left|].
    destruct (Hkeys "a"%char) as [j Hj]; [right; by left|].
    apply vocab_to_int_lookup in Hi; [|done]. apply vocab_to_int_lookup in Hj; [|done].
    pose proof (lookup_lt_Some _ _ _ Hi). pose proof (lookup_lt_Some _ _ _ Hj).
    assert (i ≠ j) by (intros ->; rewrite Hi in Hj; discriminate Hj).
    cbn [G notebook_globals g_vocab]. lia. }
  destruct (prime_loop_returns G model (String.list_ascii_of_string "Far")
              None (@initial_state S model) w Hkeys)
    as (w1 & [preds st] & Hprime & Hent1 & Hlast).
  destruct Hlast as (b & Hpreds & x & st' & Hb); [done|].
  simpl in Hpreds. subst preds.
  destruct (Hmodel x st') as (Hlen & Hnonneg & Hsum).
  destruct (pick_top_n_returns argsort (NdArray b) (Py.len (g_vocab G)) 5 w1 Hsort)
    as (w2 & c & Hpick & Hc).
  - lia.
  - cbn [base]. rewrite Hb, Hlen. exact HV.
  - cbn [base]. unfold Py.len. by rewrite Hb, Hlen.
  - cbn [base]. by rewrite Hb.
  - cbn [base]. by rewrite Hb.
  - rewrite Hent1. apply Hent.
  - rewrite Hent1. apply Hent.
  - cbn [base] in Hc. rewrite Hb, Hlen in Hc.
    destruct (Hcodes c Hc) as [ch Hch].
    destruct (sample_loop_returns argsort Hsort G model Hmodel HV Hcodes
                (Z.to_nat n_samples) c st
                (String.list_ascii_of_string "Far" ++ [ch]) w2)
      as (w' & out & Hloop).
    { intros k. rewrite (pick_top_n_Ok_entropy _ _ _ _ _ _ _ Hpick), Hent1. apply Hent. }
    exists w', (String.string_of_list_ascii out).
    unfold sample. rewrite Hres. unfold mbind at 1, M_bind at 1, lift at 1.
    fold G. unfold mbind at 1, M_bind at 1. rewrite Hprime.
    unfold mbind at 1, M_bind at 1. rewrite Hpick.
    unfold mbind at 1, M_bind at 1, lift at 1, getitem at 1. rewrite Hch.
    unfold mbind at 1, M_bind at 1. by rewrite Hloop.
Qed.

Lemma sample_returns_witness :
  ∃ w' out,
    sample argsort_stable (λ _ _ _, Ok ex_net) (notebook_globals remove_dups "Far")
      "anna.ckpt" 2 512 3 "The " (World ∅ (λ _, Q2Qc (1 # 3))) = (w', Ok out).
Proof.
  apply (sample_returns argsort_stable (λ _ _ _, Ok ex_net) remove_dups "Far"
           "anna.ckpt" 2 512 3 "The " (World ∅ (λ _, Q2Qc (1 # 3))) ex_net).
  - apply argsort_stable_spec.
  - apply remove_dups_order.
  - reflexivity.
  - done.
  - intros x st. split_and!.
    + reflexivity.
    + intros y Hy. simpl in Hy.
      repeat (apply elem_of_cons in Hy as [->|Hy]; [by vm_compute|]).
      by apply elem_of_nil in Hy.
    + decide_by_compute.
  - intros k. split; by vm_compute.
Defined.

